(** * BeePlayer: the URL player widget (src/components/url-player.tsx)

    A shallow embedding of the playback state held by the [UrlPlayer]
    component and of the handlers that update it.  JavaScript numbers are
    IEEE-754 binary64 values, modelled by Rocq's primitive floats;
    JavaScript strings are sequences of UTF-16 code units.  Where a
    property bounds a rounding error, the primitive operations are read
    through their specification in [SpecFloat] and the error is measured in
    real numbers. *)

From Stdlib Require Import List String Ascii Bool ZArith NArith Lia.
From Stdlib Require Import DecimalString.
From Stdlib Require Import PrimFloat FloatOps SpecFloat FloatAxioms.
From Stdlib Require Import Reals Lra.
Import ListNotations.

Set Implicit Arguments.

(** ** JavaScript values used by the component *)

Module JS.

(** A JavaScript string: its UTF-16 code units. *)
Definition jsstring := list N.

(** An ASCII literal as a JavaScript string. *)
Definition lit (s : string) : jsstring :=
  List.map N_of_ascii (list_ascii_of_string s).

(** ECMAScript WhiteSpace: TAB, VT, FF, SP, NBSP, ZWNBSP and the
    Unicode space separators. *)
Definition isWhiteSpace (c : N) : bool :=
  ((c =? 0x9) || (c =? 0xB) || (c =? 0xC) || (c =? 0x20) || (c =? 0xA0)
   || (c =? 0xFEFF) || (c =? 0x1680)
   || ((0x2000 <=? c) && (c <=? 0x200A))
   || (c =? 0x202F) || (c =? 0x205F) || (c =? 0x3000))%N.

(** ECMAScript LineTerminator: LF, CR, LS, PS. *)
Definition isLineTerminator (c : N) : bool :=
  ((c =? 0xA) || (c =? 0xD) || (c =? 0x2028) || (c =? 0x2029))%N.

(** The code units removed by [String.prototype.trim]. *)
Definition isTrimmed (c : N) : bool := isWhiteSpace c || isLineTerminator c.

Fixpoint trimStart (s : jsstring) : jsstring :=
  match s with
  | [] => []
  | c :: s' => if isTrimmed c then trimStart s' else s
  end.

Definition trimEnd (s : jsstring) : jsstring := rev (trimStart (rev s)).

(** [String.prototype.trim]. *)
Definition trim (s : jsstring) : jsstring := trimEnd (trimStart s).

(** ToBoolean on a string: only the empty string is falsy. *)
Definition truthy_string (s : jsstring) : bool :=
  match s with [] => false | _ :: _ => true end.

(** A JavaScript number. *)
Definition number := float.

(** ToBoolean on a number: [+0], [-0] and [NaN] are falsy. *)
Definition truthy_number (x : number) : bool :=
  negb (is_zero x || is_nan x).

(** [Array.prototype.find]: the first element satisfying the predicate. *)
Definition find {A} (p : A -> bool) (l : list A) : option A := List.find p l.

(** Strict equality [===] on strings. *)
Definition streq (a b : jsstring) : bool :=
  if list_eq_dec N.eq_dec a b then true else false.

End JS.

Import JS.

(** ** The preset catalog ([presetVideos]) *)

Module Preset.

Record t := mk {
  key : jsstring;
  label : jsstring;
  url : jsstring
}.

End Preset.

Definition presetVideos : list Preset.t :=
  [ {| Preset.key := [0x70ED; 0x5E26; 0x96E8; 0x6797]%N;
       Preset.label := [0x70ED; 0x5E26; 0x96E8; 0x6797; 0x767D; 0x566A; 0x97F3]%N;
       Preset.url := lit "https://www.youtube.com/watch?v=kHr4yag0fqA" |} ].

(** ** The player state ([PlayerState], [initialState]) *)

Record PlayerState := mkPlayerState {
  src : option jsstring;
  pip : bool;
  playing : bool;
  controls : bool;
  light : bool;
  volume : number;
  muted : bool;
  played : number;
  loaded : number;
  duration : number;
  playbackRate : number;
  loop : bool;
  seeking : bool;
  loadedSeconds : number;
  playedSeconds : number
}.

Definition initialState (defaultUrl : jsstring) : PlayerState :=
  {| src := Some defaultUrl;
     pip := false;
     playing := false;
     controls := false;
     light := false;
     volume := 1%float;
     muted := false;
     played := 0%float;
     loaded := 0%float;
     duration := 0%float;
     playbackRate := 1%float;
     loop := false;
     seeking := false;
     loadedSeconds := 0%float;
     playedSeconds := 0%float |}.

(** Object spread with one overridden property, [{ ...prevState, f: v }]. *)

Definition with_src (v : option jsstring) (s : PlayerState) : PlayerState :=
  mkPlayerState v (pip s) (playing s) (controls s) (light s) (volume s)
    (muted s) (played s) (loaded s) (duration s) (playbackRate s) (loop s)
    (seeking s) (loadedSeconds s) (playedSeconds s).

Definition with_playing (v : bool) (s : PlayerState) : PlayerState :=
  mkPlayerState (src s) (pip s) v (controls s) (light s) (volume s)
    (muted s) (played s) (loaded s) (duration s) (playbackRate s) (loop s)
    (seeking s) (loadedSeconds s) (playedSeconds s).

Definition with_muted (v : bool) (s : PlayerState) : PlayerState :=
  mkPlayerState (src s) (pip s) (playing s) (controls s) (light s) (volume s)
    v (played s) (loaded s) (duration s) (playbackRate s) (loop s)
    (seeking s) (loadedSeconds s) (playedSeconds s).

Definition with_played (v : number) (s : PlayerState) : PlayerState :=
  mkPlayerState (src s) (pip s) (playing s) (controls s) (light s) (volume s)
    (muted s) v (loaded s) (duration s) (playbackRate s) (loop s)
    (seeking s) (loadedSeconds s) (playedSeconds s).

Definition with_loaded (v : number) (s : PlayerState) : PlayerState :=
  mkPlayerState (src s) (pip s) (playing s) (controls s) (light s) (volume s)
    (muted s) (played s) v (duration s) (playbackRate s) (loop s)
    (seeking s) (loadedSeconds s) (playedSeconds s).

Definition with_duration (v : number) (s : PlayerState) : PlayerState :=
  mkPlayerState (src s) (pip s) (playing s) (controls s) (light s) (volume s)
    (muted s) (played s) (loaded s) v (playbackRate s) (loop s)
    (seeking s) (loadedSeconds s) (playedSeconds s).

Definition with_loop (v : bool) (s : PlayerState) : PlayerState :=
  mkPlayerState (src s) (pip s) (playing s) (controls s) (light s) (volume s)
    (muted s) (played s) (loaded s) (duration s) (playbackRate s) v
    (seeking s) (loadedSeconds s) (playedSeconds s).

Definition with_loadedSeconds (v : number) (s : PlayerState) : PlayerState :=
  mkPlayerState (src s) (pip s) (playing s) (controls s) (light s) (volume s)
    (muted s) (played s) (loaded s) (duration s) (playbackRate s) (loop s)
    (seeking s) v (playedSeconds s).

Definition with_playedSeconds (v : number) (s : PlayerState) : PlayerState :=
  mkPlayerState (src s) (pip s) (playing s) (controls s) (light s) (volume s)
    (muted s) (played s) (loaded s) (duration s) (playbackRate s) (loop s)
    (seeking s) (loadedSeconds s) v.

(** ** The media element behind [playerRef.current]

    Only what the handlers read: the buffered time ranges (absent on
    elements that do not implement them, hence the optional chaining in the
    source), the total duration and the current time. *)

Module TimeRanges.

(** The ranges, each with its start and its end, in seconds. *)
Definition t := list (number * number).

Definition length (r : t) : nat := List.length r.

(** [end(i)]; an index out of range raises, rendered here by [None]. *)
Definition end_ (r : t) (i : nat) : option number :=
  option_map snd (nth_error r i).

End TimeRanges.

Module HTMLVideoElement.

Record t := mk {
  buffered : option TimeRanges.t;
  duration : number;
  currentTime : number
}.

End HTMLVideoElement.

(** ** The component: its three pieces of React state

    [state], [url] and [liked] are the values of the three [useState] cells.
    Every event is handled to completion and the component is rendered
    again before the next event is delivered, so the [state] and [url] a
    handler closes over are the ones left by the previous event. *)

Record Widget := mkWidget {
  state : PlayerState;
  url : jsstring;
  liked : bool
}.

Definition mount (defaultUrl : jsstring) : Widget :=
  {| state := initialState defaultUrl; url := defaultUrl; liked := false |}.

(** [setState(updater)], [setUrl(value)] and [setLiked(updater)]. *)

Definition setState (updater : PlayerState -> PlayerState) (w : Widget) : Widget :=
  {| state := updater (state w); url := url w; liked := liked w |}.

Definition setUrl (value : jsstring) (w : Widget) : Widget :=
  {| state := state w; url := value; liked := liked w |}.

Definition setLiked (updater : bool -> bool) (w : Widget) : Widget :=
  {| state := state w; url := url w; liked := updater (liked w) |}.

(** ** The handlers *)

Definition handlePlayPause : Widget -> Widget :=
  setState (fun prevState => with_playing (negb (playing prevState)) prevState).

Definition handleStop : Widget -> Widget :=
  setState (fun prevState => with_playing false (with_src None prevState)).

Definition handleToggleMuted : Widget -> Widget :=
  setState (fun prevState => with_muted (negb (muted prevState)) prevState).

Definition handleToggleLoop : Widget -> Widget :=
  setState (fun prevState => with_loop (negb (loop prevState)) prevState).

Definition handleProgress (playerRef : option HTMLVideoElement.t)
    (w : Widget) : Widget :=
  match playerRef with
  | None => w
  | Some player =>
      if seeking (state w) then w
      else
        match HTMLVideoElement.buffered player with
        | None => w
        | Some ranges =>
            if Nat.eqb (TimeRanges.length ranges) 0 then w
            else
              match TimeRanges.end_ ranges (TimeRanges.length ranges - 1) with
              | None => w
              | Some bufferedEnd =>
                  setState (fun prevState =>
                    with_loaded (bufferedEnd / HTMLVideoElement.duration player)%float
                      (with_loadedSeconds bufferedEnd prevState)) w
              end
        end
  end.

Definition handleTimeUpdate (playerRef : option HTMLVideoElement.t)
    (w : Widget) : Widget :=
  match playerRef with
  | None => w
  | Some player =>
      if seeking (state w) then w
      else if negb (truthy_number (HTMLVideoElement.duration player)) then w
      else
        setState (fun prevState =>
          with_played
            (HTMLVideoElement.currentTime player / HTMLVideoElement.duration player)%float
            (with_playedSeconds (HTMLVideoElement.currentTime player) prevState)) w
  end.

Definition handleEnded : Widget -> Widget :=
  setState (fun prevState => with_playing (loop prevState) prevState).

Definition handleDurationChange (playerRef : option HTMLVideoElement.t)
    (w : Widget) : Widget :=
  match playerRef with
  | None => w
  | Some player =>
      setState (fun prevState =>
        with_duration (HTMLVideoElement.duration player) prevState) w
  end.

Definition handleLoadCustomUrl (w : Widget) : Widget :=
  if truthy_string (trim (url w)) then
    setState (fun prevState => with_src (Some (url w)) prevState) w
  else w.

Definition handlePresetSelect (selectedKey : jsstring) (w : Widget) : Widget :=
  match JS.find (fun video => streq (Preset.key video) selectedKey) presetVideos with
  | Some selectedVideo =>
      setState (fun prevState => with_src (Some (Preset.url selectedVideo)) prevState)
        (setUrl (Preset.url selectedVideo) w)
  | None => w
  end.

(** The inline [onPlay] and [onPause] callbacks handed to the player. *)

Definition onPlay : Widget -> Widget :=
  setState (fun prevState => with_playing true prevState).

Definition onPause : Widget -> Widget :=
  setState (fun prevState => with_playing false prevState).

(** ** Events and their delivery *)

Inductive Event :=
| PressPlayPause
| PressStop
| PressToggleMuted
| PressToggleLoop
| PressLoad
| PressLike
| ChangeUrl (value : jsstring)
| SelectPreset (selectedKey : jsstring)
| OnPlay
| OnPause
| OnEnded
| OnTimeUpdate (playerRef : option HTMLVideoElement.t)
| OnProgress (playerRef : option HTMLVideoElement.t)
| OnDurationChange (playerRef : option HTMLVideoElement.t).

Definition dispatch (e : Event) (w : Widget) : Widget :=
  match e with
  | PressPlayPause => handlePlayPause w
  | PressStop => handleStop w
  | PressToggleMuted => handleToggleMuted w
  | PressToggleLoop => handleToggleLoop w
  | PressLoad => handleLoadCustomUrl w
  | PressLike => setLiked negb w
  | ChangeUrl value => setUrl value w
  | SelectPreset selectedKey => handlePresetSelect selectedKey w
  | OnPlay => onPlay w
  | OnPause => onPause w
  | OnEnded => handleEnded w
  | OnTimeUpdate playerRef => handleTimeUpdate playerRef w
  | OnProgress playerRef => handleProgress playerRef w
  | OnDurationChange playerRef => handleDurationChange playerRef w
  end.

Definition run (events : list Event) (w : Widget) : Widget :=
  fold_left (fun w e => dispatch e w) events w.

(** ** The operations under the names the specification gives them

    The media element's callbacks take no argument in the source: the
    handlers read the element through [playerRef].  The specification names
    what is read; [onTimeUpdate] and [onProgress] below build the element
    that reports exactly those values. *)

Definition stop : Widget -> Widget := handleStop.

Definition onEnded : Widget -> Widget := handleEnded.

Definition loadSource : Widget -> Widget := handleLoadCustomUrl.

Definition selectPreset : jsstring -> Widget -> Widget := handlePresetSelect.

Definition onTimeUpdate (currentTimeSeconds totalDuration : number)
    : Widget -> Widget :=
  handleTimeUpdate
    (Some {| HTMLVideoElement.buffered := Some [];
             HTMLVideoElement.duration := totalDuration;
             HTMLVideoElement.currentTime := currentTimeSeconds |}).

Definition onProgress (bufferedEndSeconds totalDuration : number)
    : Widget -> Widget :=
  handleProgress
    (Some {| HTMLVideoElement.buffered := Some [(0%float, bufferedEndSeconds)];
             HTMLVideoElement.duration := totalDuration;
             HTMLVideoElement.currentTime := 0%float |}).

(** The events of the media element's clock: progress and time updates. *)
Definition isClockEvent (e : Event) : bool :=
  match e with
  | OnTimeUpdate _ | OnProgress _ => true
  | _ => false
  end.

(** A string that is empty or made of white space and line terminators only. *)
Definition blank (s : jsstring) : Prop := Forall (fun c => isTrimmed c = true) s.

(** ** The duration formatter ([Duration], imported from ./duration)

    The module ./duration that [url-player.tsx] imports is not among the
    sources; what follows is written from section 4.3 of the
    specification. *)

Module Duration.

(** Modelled from the spec: zero padding, the missing helper of ./duration.
    A number written with fewer than two digits gets a zero on its left. *)
Definition pad (n : Z) : string :=
  let digits := NilZero.string_of_uint (N.to_uint (Z.to_N n)) in
  if Nat.ltb (String.length digits) 2 then String "0" digits else digits.

(** Modelled from the spec: the whole seconds in a finite, non-negative
    number of seconds, for the missing ./duration.  The specification does
    not say what becomes of a fraction of a second; it is dropped here. *)
Definition whole (seconds : number) : Z :=
  match Prim2SF seconds with
  | S754_finite false m e => Z.shiftl (Zpos m) e
  | _ => 0%Z
  end.

(** Modelled from the spec: the two layouts of the missing ./duration,
    MM:SS for durations under an hour and HH:MM:SS otherwise. *)
Definition formatWhole (total : Z) : string :=
  let hh := (total / 3600)%Z in
  let mm := ((total / 60) mod 60)%Z in
  let ss := (total mod 60)%Z in
  if (total <? 3600)%Z then (pad mm ++ ":" ++ pad ss)%string
  else (pad hh ++ ":" ++ pad mm ++ ":" ++ pad ss)%string.

(** Modelled from the spec: the formatter of the missing ./duration, a pure
    function from seconds to a display string that renders the safe
    default 00:00 on a non-finite or negative input, zero-padded MM:SS
    for durations under an hour and HH:MM:SS otherwise. *)
Definition format (seconds : number) : string :=
  if is_nan seconds || is_infinity seconds || (seconds <? 0)%float
  then "00:00"%string
  else formatWhole (whole seconds).

(** The shape the specification asks for: exactly two decimal digits. *)
Definition digit (d : Z) : ascii := ascii_of_nat (48 + Z.to_nat d).

Definition twoDigits (n : Z) : string :=
  String (digit (n / 10)) (String (digit (n mod 10)) EmptyString).

End Duration.

(** ** Predicates of the specification *)

(** The interval [0,1] of the fractions [played] and [loaded]. *)
Definition isFraction (x : number) : bool := ((0 <=? x) && (x <=? 1))%float.

Definition fractionsInRange (w : Widget) : bool :=
  isFraction (played (state w)) && isFraction (loaded (state w)).

(** Equality of two fractions up to an absolute tolerance of 2^-20. *)
Definition withinTolerance (x y : number) : bool :=
  (abs (x - y) <=? 0x1p-20)%float.

(** The fields of [PlayerState], to say which of them an operation may
    give a new value. *)
Inductive Field :=
| Fsrc | Fpip | Fplaying | Fcontrols | Flight | Fvolume | Fmuted | Fplayed
| Floaded | Fduration | FplaybackRate | Floop | Fseeking | FloadedSeconds
| FplayedSeconds.

Definition sameField (f : Field) (s s' : PlayerState) : Prop :=
  match f with
  | Fsrc => src s' = src s
  | Fpip => pip s' = pip s
  | Fplaying => playing s' = playing s
  | Fcontrols => controls s' = controls s
  | Flight => light s' = light s
  | Fvolume => volume s' = volume s
  | Fmuted => muted s' = muted s
  | Fplayed => played s' = played s
  | Floaded => loaded s' = loaded s
  | Fduration => duration s' = duration s
  | FplaybackRate => playbackRate s' = playbackRate s
  | Floop => loop s' = loop s
  | Fseeking => seeking s' = seeking s
  | FloadedSeconds => loadedSeconds s' = loadedSeconds s
  | FplayedSeconds => playedSeconds s' = playedSeconds s
  end.

(** [w'] differs from [w] in the listed fields of [state] at most; the
    pending url text and the like toggle are kept unless stated otherwise. *)
Definition stateKeptExcept (changed : list Field) (w w' : Widget) : Prop :=
  forall f, ~ In f changed -> sameField f (state w) (state w').

Definition keptExcept (changed : list Field) (w w' : Widget) : Prop :=
  stateKeptExcept changed w w' /\ url w' = url w /\ liked w' = liked w.

(** ** Sample inputs *)

(** A widget in the middle of a scrub: [seeking] is declared in
    [initialState] and read by the handlers, and no handler sets it. *)
Definition scrubbing (w : Widget) : Widget :=
  setState (fun s =>
    mkPlayerState (src s) (pip s) (playing s) (controls s) (light s)
      (volume s) (muted s) (played s) (loaded s) (duration s)
      (playbackRate s) (loop s) true (loadedSeconds s) (playedSeconds s)) w.

(** An element half a minute into a two-minute medium, 40 s buffered. *)
Definition sampleElement : HTMLVideoElement.t :=
  {| HTMLVideoElement.buffered := Some [(0%float, 40%float)];
     HTMLVideoElement.duration := 120%float;
     HTMLVideoElement.currentTime := 30%float |}.

Definition presetKey : jsstring := [0x70ED; 0x5E26; 0x96E8; 0x6797]%N.

Definition paddedUrl : jsstring := lit "  https://example.com/v.mp4 ".

(** ** The player reference ([setPlayerRef]) *)

(** The ref callback handed to [ReactPlayer]: a null element is ignored,
    any other replaces the current one.  The first argument is the element
    React passes, the second the value of [playerRef.current]. *)
Definition setPlayerRef (player current : option HTMLVideoElement.t)
    : option HTMLVideoElement.t :=
  match player with
  | None => current
  | Some _ => player
  end.

(** The ref after React has called the callback with each element in turn,
    starting from [useRef(null)]. *)
Definition playerRefAfter (calls : list (option HTMLVideoElement.t))
    : option HTMLVideoElement.t :=
  fold_left (fun current player => setPlayerRef player current) calls None.

(** ** What the component renders *)

(** ToBoolean on [string | undefined]: [undefined] and the empty string
    are falsy. *)
Definition truthy_src (s : option jsstring) : bool :=
  match s with
  | None => false
  | Some text => truthy_string text
  end.

Inductive Icon :=
| PauseCircleBoldIcon | PlayCircleBoldIcon | VolumeUpBoldIcon | VolumeOffBoldIcon.

Inductive Color := primary | default | warning.

(** The props [ReactPlayer] receives when it is rendered. *)
Record ReactPlayerProps := mkReactPlayerProps {
  props_src : jsstring;
  props_playing : bool;
  props_controls : bool;
  props_loop : bool;
  props_volume : number;
  props_muted : bool
}.

(** The rendered tree, as far as it depends on the state: [player] is the
    [ReactPlayer] element, absent when the placeholder image is shown. *)
Record View := mkView {
  player : option ReactPlayerProps;
  heartFilled : bool;
  inputValue : jsstring;
  loadDisabled : bool;
  progressValue : number;
  elapsedSeconds : number;
  totalSeconds : number;
  selectItems : list (jsstring * jsstring);
  loopColor : Color;
  stopDisabled : bool;
  playPauseDisabled : bool;
  playPauseIcon : Icon;
  mutedColor : Color;
  mutedIcon : Icon
}.

Definition render (w : Widget) : View :=
  let st := state w in
  {| player :=
       match src st with
       | Some text =>
           if truthy_string text then
             Some {| props_src := text;
                     props_playing := playing st;
                     props_controls := false;
                     props_loop := loop st;
                     props_volume := volume st;
                     props_muted := muted st |}
           else None
       | None => None
       end;
     heartFilled := liked w;
     inputValue := url w;
     loadDisabled := negb (truthy_string (trim (url w)));
     progressValue := (played st * 100)%float;
     elapsedSeconds := (duration st * played st)%float;
     totalSeconds := duration st;
     selectItems :=
       List.map (fun video => (Preset.key video, Preset.label video)) presetVideos;
     loopColor := if loop st then primary else default;
     stopDisabled := negb (truthy_src (src st));
     playPauseDisabled := negb (truthy_src (src st));
     playPauseIcon := if playing st then PauseCircleBoldIcon else PlayCircleBoldIcon;
     mutedColor := if muted st then warning else default;
     mutedIcon := if muted st then VolumeOffBoldIcon else VolumeUpBoldIcon |}.

(** The [onSelectionChange] callback of the preset selector: the first key
    of the selection, when there is one and it is truthy, goes to
    [handlePresetSelect]. *)
Definition onSelectionChange (keys : list jsstring) (w : Widget) : Widget :=
  match keys with
  | selectedKey :: _ =>
      if truthy_string selectedKey then handlePresetSelect selectedKey w else w
  | [] => w
  end.

(** Which events the rendered tree can deliver: a button rendered with
    [isDisabled] delivers no press, and the callbacks of the media element
    exist only while [ReactPlayer] is rendered. *)
Definition deliverable (e : Event) (w : Widget) : bool :=
  let view := render w in
  match e with
  | PressPlayPause => negb (playPauseDisabled view)
  | PressStop => negb (stopDisabled view)
  | PressLoad => negb (loadDisabled view)
  | OnPlay | OnPause | OnEnded
  | OnTimeUpdate _ | OnProgress _ | OnDurationChange _ =>
      match player view with Some _ => true | None => false end
  | PressToggleMuted | PressToggleLoop | PressLike
  | ChangeUrl _ | SelectPreset _ => true
  end.

(** Every event of the sequence is deliverable when its turn comes. *)
Fixpoint deliverableAll (events : list Event) (w : Widget) : bool :=
  match events with
  | [] => true
  | e :: rest => deliverable e w && deliverableAll rest (dispatch e w)
  end.

(** [playing] is set only while a source is present. *)
Definition playingHasSource (w : Widget) : Prop :=
  playing (state w) = true -> truthy_src (src (state w)) = true.

(** A source that was put there by a load: it is not blank. *)
Definition loadedSourceOf (initial : option jsstring) (w : Widget) : Prop :=
  src (state w) = None
  \/ src (state w) = initial
  \/ exists text, src (state w) = Some text /\ trim text <> [].

(** ** Binary64 numbers as real numbers

    The primitive operations are specified by the operations of [SpecFloat]
    on sign, mantissa and exponent.  The definitions below give such a
    number its real value, to say how far a rounded result is from the
    exact one. *)

(** 2^e as a real number. *)
Definition bpow (e : Z) : R := powerRZ 2 e.

(** The real value of a number: zero for the zeros, and also for the
    infinities and NaN, which the lemmas exclude where it matters. *)
Definition SF2R (x : spec_float) : R :=
  match x with
  | S754_finite s m e =>
      if s then (- (IZR (Zpos m) * bpow e))%R else (IZR (Zpos m) * bpow e)%R
  | _ => 0%R
  end.

(** The position of the exact value [t] between [m * 2^e] and the next
    multiple of 2^e, as the rounding functions record it. *)
Definition located (m : Z) (l : location) (e : Z) (t : R) : Prop :=
  match l with
  | loc_Exact => t = (IZR m * bpow e)%R
  | loc_Inexact Lt => (IZR m * bpow e < t < IZR m * bpow e + bpow e / 2)%R
  | loc_Inexact Eq => t = (IZR m * bpow e + bpow e / 2)%R
  | loc_Inexact Gt => (IZR m * bpow e + bpow e / 2 < t < IZR m * bpow e + bpow e)%R
  end.

Definition located_record (mrs : shr_record) (e : Z) (t : R) : Prop :=
  (0 <= shr_m mrs)%Z /\ located (shr_m mrs) (loc_of_shr_record mrs) e t.

(** The relative and the absolute rounding unit of binary64. *)
Definition eps : R := bpow (-52).
Definition eta : R := bpow (-1074).

(** A mantissa and an exponent in the form valid numbers have. *)
Definition canonical (m : positive) (e : Z) : Prop :=
  fexp prec emax (Zpos (digits2_pos m) + e) = e /\ (e <= 971)%Z.

(** The constants 1, 2^-20 and 2^-1050 by mantissa and exponent. *)
Definition SF_one : spec_float := S754_finite false 4503599627370496 (-52).
Definition SF_tolerance : spec_float := S754_finite false 4503599627370496 (-72).
Definition SF_least : spec_float := S754_finite false 16777216 (-1074).

(** A number that is a zero or positive and finite. *)
Definition nonneg_number (x : spec_float) : Prop :=
  (exists s, x = S754_zero s) \/ (exists m e, x = S754_finite false m e).

(** * Properties *)

Ltac unfold_ops :=
  unfold stop, onEnded, loadSource, selectPreset, onTimeUpdate, onProgress,
    handleStop, handleEnded, handlePlayPause, handleToggleMuted,
    handleToggleLoop, onPlay, onPause, setState, setUrl, setLiked in *.

Ltac frame :=
  let f := fresh "f" in
  let Hf := fresh "Hf" in
  intros f Hf; destruct f; try reflexivity;
  exfalso; apply Hf; simpl; tauto.

(** Two states with the same fields are the same state. *)
Lemma sameField_all_eq (s s' : PlayerState) :
  (forall f, sameField f s s') -> s' = s.
Proof.
  intros H. destruct s, s'.
  pose proof (H Fsrc) as E1; pose proof (H Fpip) as E2;
  pose proof (H Fplaying) as E3; pose proof (H Fcontrols) as E4;
  pose proof (H Flight) as E5; pose proof (H Fvolume) as E6;
  pose proof (H Fmuted) as E7; pose proof (H Fplayed) as E8;
  pose proof (H Floaded) as E9; pose proof (H Fduration) as E10;
  pose proof (H FplaybackRate) as E11; pose proof (H Floop) as E12;
  pose proof (H Fseeking) as E13; pose proof (H FloadedSeconds) as E14;
  pose proof (H FplayedSeconds) as E15.
  simpl in *. clear H. subst. reflexivity.
Qed.

(** ** Ended *)

(** C1: for every state, [onEnded] sets [playing] to the value [loop] has,
    whatever [playing] was before (so [playing] becomes true exactly when
    [loop] is enabled), and no other field gets a new value. *)
Theorem onEnded_playing_is_loop (w : Widget) :
  playing (state (onEnded w)) = loop (state w)
  /\ (playing (state (onEnded w)) = true <-> loop (state w) = true)
  /\ keptExcept [Fplaying] w (onEnded w).
Proof.
  unfold_ops. simpl. repeat split; auto; try frame; intros H; exact H.
Qed.

(** ** Stop *)

(** C2: whatever the prior state, after [stop] the source is absent and
    [playing] is false. *)
Theorem stop_clears_src_and_playing (w : Widget) :
  src (state (stop w)) = None /\ playing (state (stop w)) = false.
Proof. unfold_ops. simpl. split; reflexivity. Qed.

(** C3: [stop] changes [src] and [playing] only: [played], [loaded],
    [playedSeconds], [loadedSeconds], [duration] and every remaining field
    keep the values they had. *)
Theorem stop_keeps_other_fields (w : Widget) :
  played (state (stop w)) = played (state w)
  /\ loaded (state (stop w)) = loaded (state w)
  /\ playedSeconds (state (stop w)) = playedSeconds (state w)
  /\ loadedSeconds (state (stop w)) = loadedSeconds (state w)
  /\ duration (state (stop w)) = duration (state w)
  /\ keptExcept [Fsrc; Fplaying] w (stop w).
Proof.
  unfold_ops. simpl. repeat split; auto; frame.
Qed.

(** ** Progress and time updates while seeking *)

Lemma handleProgress_seeking playerRef (w : Widget) :
  seeking (state w) = true -> handleProgress playerRef w = w.
Proof.
  intros Hs. unfold handleProgress. destruct playerRef as [player|]; auto.
  rewrite Hs. reflexivity.
Qed.

Lemma handleTimeUpdate_seeking playerRef (w : Widget) :
  seeking (state w) = true -> handleTimeUpdate playerRef w = w.
Proof.
  intros Hs. unfold handleTimeUpdate. destruct playerRef as [player|]; auto.
  rewrite Hs. reflexivity.
Qed.

Lemma run_clock_events_seeking (events : list Event) (w : Widget) :
  seeking (state w) = true ->
  forallb isClockEvent events = true ->
  run events w = w.
Proof.
  intros Hs. unfold run. induction events as [|e events IH]; simpl; auto.
  intros Hall. apply andb_prop in Hall. destruct Hall as [He Hall].
  destruct e; simpl in He; try discriminate; simpl.
  - rewrite handleTimeUpdate_seeking by exact Hs. auto.
  - rewrite handleProgress_seeking by exact Hs. auto.
Qed.

(** C4: in a state where [seeking] is true, one call or any sequence of
    calls of [onProgress] and [onTimeUpdate], whatever the element reports,
    leaves [played], [loaded], [playedSeconds] and [loadedSeconds] as they
    were. *)
Theorem seeking_suppresses_clock_events (events : list Event) (w : Widget) :
  seeking (state w) = true ->
  forallb isClockEvent events = true ->
  played (state (run events w)) = played (state w)
  /\ loaded (state (run events w)) = loaded (state w)
  /\ playedSeconds (state (run events w)) = playedSeconds (state w)
  /\ loadedSeconds (state (run events w)) = loadedSeconds (state w).
Proof.
  intros Hs Hall. rewrite run_clock_events_seeking by assumption.
  repeat split.
Qed.

Lemma seeking_suppresses_clock_events_witness :
  let w := scrubbing (mount []) in
  let events := [OnProgress (Some sampleElement); OnTimeUpdate (Some sampleElement);
                 OnTimeUpdate None; OnProgress (Some sampleElement)] in
  played (state (run events w)) = played (state w)
  /\ loaded (state (run events w)) = loaded (state w)
  /\ playedSeconds (state (run events w)) = playedSeconds (state w)
  /\ loadedSeconds (state (run events w)) = loadedSeconds (state w).
Proof.
  intros w events.
  apply (seeking_suppresses_clock_events events w); reflexivity.
Defined.

(** Without the scrub the same events do move the progress fields. *)
Example clock_events_when_not_seeking :
  let w := run [OnProgress (Some sampleElement); OnTimeUpdate (Some sampleElement)]
               (mount []) in
  played (state w) = 0.25%float /\ playedSeconds (state w) = 30%float
  /\ loadedSeconds (state w) = 40%float
  /\ loaded (state w) = (40 / 120)%float.
Proof. vm_compute. repeat split. Qed.

(** ** Time updates *)

Lemma handleTimeUpdate_falsy_duration player (w : Widget) :
  truthy_number (HTMLVideoElement.duration player) = false ->
  handleTimeUpdate (Some player) w = w.
Proof.
  intros Hd. unfold handleTimeUpdate. rewrite Hd. simpl.
  destruct (seeking (state w)); reflexivity.
Qed.

(** C5, as stated, fails.  A duration of zero is allowed by [d >= 0], and
    there the time update is dropped, so [played] keeps its old value 0
    where the fraction [p] is 1.  Nor does the tolerance hold for every
    duration above zero: against the smallest positive duration the product
    [p * d] underflows to 0 and [played] comes out as 0 for [p] = 0.25. *)
Lemma onTimeUpdate_zero_duration_counterexample :
  ~ (forall (p d : number) (w : Widget),
       isFraction p = true -> (0 <=? d)%float = true ->
       seeking (state w) = false ->
       withinTolerance (played (state (onTimeUpdate (p * d)%float d w))) p = true
       /\ playedSeconds (state (onTimeUpdate (p * d)%float d w)) = (p * d)%float)
  /\ ~ (forall (p d : number) (w : Widget),
         isFraction p = true -> (0 <? d)%float = true ->
         seeking (state w) = false ->
         withinTolerance (played (state (onTimeUpdate (p * d)%float d w))) p = true).
Proof.
  split; intros H.
  - destruct (H 1%float 0%float (mount [])) as [Hp _]; try reflexivity.
    vm_compute in Hp. discriminate Hp.
  - specialize (H 0.25%float 0x1p-1074%float (mount [])).
    vm_compute in H. specialize (H eq_refl eq_refl eq_refl). discriminate H.
Qed.

(** What the code computes at these two inputs. *)
Example onTimeUpdate_zero_duration :
  onTimeUpdate (1 * 0)%float 0%float (mount []) = mount []
  /\ played (state (mount [])) = 0%float.
Proof. vm_compute. split; reflexivity. Qed.

Example onTimeUpdate_subnormal_duration :
  let d := 0x1p-1074%float in
  let p := 0.25%float in
  (0 <? d)%float = true
  /\ (p * d)%float = 0%float
  /\ played (state (onTimeUpdate (p * d)%float d (mount []))) = 0%float.
Proof. vm_compute. repeat split. Qed.

(** A negative duration, though not greater than 0, is truthy and is not
    ignored. *)
Example onTimeUpdate_negative_duration :
  let w := onTimeUpdate 1%float (-1)%float (mount []) in
  (0 <? -1)%float = false
  /\ played (state w) = (-1)%float /\ playedSeconds (state w) = 1%float.
Proof. vm_compute. repeat split. Qed.

(** On the scenario of the specification the fraction is exact. *)
Example onTimeUpdate_30_of_120 :
  let w := onTimeUpdate (0.25 * 120)%float 120%float (mount []) in
  played (state w) = 0.25%float /\ playedSeconds (state w) = 30%float.
Proof. vm_compute. split; reflexivity. Qed.

(** ** The range of the fractions *)

(** C6: the code leaves the interval.  [handleProgress] divides by the
    element's duration without the test for a zero or NaN duration that
    [handleTimeUpdate] makes: from the initial state, where both fractions
    are 0, a buffered end of 5 s against a duration of 0 gives [loaded] the
    value infinity, and against a NaN duration the value NaN, while the
    same reports through [onTimeUpdate] are dropped. *)
Theorem onProgress_zero_duration_leaves_range :
  fractionsInRange (mount []) = true
  /\ loaded (state (onProgress 5%float 0%float (mount []))) = infinity
  /\ fractionsInRange (onProgress 5%float 0%float (mount [])) = false
  /\ loaded (state (onProgress 5%float nan (mount []))) = nan
  /\ fractionsInRange (onProgress 5%float nan (mount [])) = false
  /\ onTimeUpdate 5%float 0%float (mount []) = mount []
  /\ onTimeUpdate 5%float nan (mount []) = mount [].
Proof. vm_compute. repeat split. Qed.

(** Every event other than a progress or a time update keeps both
    fractions, hence the range. *)
Lemma other_events_keep_fractions (e : Event) (w : Widget) :
  isClockEvent e = false ->
  played (state (dispatch e w)) = played (state w)
  /\ loaded (state (dispatch e w)) = loaded (state w).
Proof.
  intros He. destruct e; simpl in He; try discriminate; simpl;
    unfold_ops; simpl; auto.
  - unfold handleLoadCustomUrl. destruct (truthy_string _); auto.
  - unfold handlePresetSelect. destruct (JS.find _ _); auto.
  - unfold handleDurationChange. destruct playerRef; auto.
Qed.

(** ** Trimming *)

Lemma trimStart_nil_iff (s : jsstring) : trimStart s = [] <-> blank s.
Proof.
  unfold blank. induction s as [|c s IH]; simpl.
  - split; [constructor | reflexivity].
  - destruct (isTrimmed c) eqn:Hc.
    + rewrite IH. split.
      * intros H. constructor; assumption.
      * intros H. inversion H; assumption.
    + split.
      * discriminate.
      * intros H. inversion H. congruence.
Qed.

Lemma blank_trimStart (s : jsstring) : blank (trimStart s) <-> blank s.
Proof.
  unfold blank. induction s as [|c s IH]; simpl.
  - tauto.
  - destruct (isTrimmed c) eqn:Hc.
    + rewrite IH. split.
      * intros H. constructor; assumption.
      * intros H. inversion H; assumption.
    + tauto.
Qed.

Lemma blank_rev (s : jsstring) : blank (rev s) <-> blank s.
Proof.
  unfold blank. rewrite !Forall_forall. split; intros H c Hc; apply H.
  - apply in_rev in Hc. exact Hc.
  - apply in_rev. exact Hc.
Qed.

(** Trimming leaves nothing exactly when the text is blank. *)
Lemma trim_nil_iff (s : jsstring) : trim s = [] <-> blank s.
Proof.
  unfold trim, trimEnd.
  rewrite <- blank_trimStart, <- blank_rev, <- trimStart_nil_iff.
  split; intros H.
  - apply (f_equal (@rev N)) in H. rewrite rev_involutive in H. exact H.
  - rewrite H. reflexivity.
Qed.

Lemma truthy_trim_iff (s : jsstring) :
  truthy_string (trim s) = true <-> trim s <> [].
Proof.
  destruct (trim s); simpl; split; try congruence; intros _; discriminate.
Qed.

(** ** Loading the pending url *)

Lemma handleLoadCustomUrl_filled (w : Widget) :
  trim (url w) <> [] ->
  handleLoadCustomUrl w = setState (with_src (Some (url w))) w.
Proof.
  intros H. unfold handleLoadCustomUrl.
  apply truthy_trim_iff in H. rewrite H. reflexivity.
Qed.

Lemma handleLoadCustomUrl_blank (w : Widget) :
  blank (url w) -> handleLoadCustomUrl w = w.
Proof.
  intros H. unfold handleLoadCustomUrl.
  apply trim_nil_iff in H. rewrite H. reflexivity.
Qed.

(** C8: when the pending url text is not empty after trimming, [loadSource]
    sets [src] to that text and leaves [playing] (and every other field)
    as it was; when the text is empty or blank, [loadSource] changes
    nothing.  The two cases are exhaustive. *)
Theorem loadSource_spec (w : Widget) :
  (trim (url w) <> [] ->
     src (state (loadSource w)) = Some (url w)
     /\ playing (state (loadSource w)) = playing (state w)
     /\ keptExcept [Fsrc] w (loadSource w))
  /\ (blank (url w) -> loadSource w = w)
  /\ (trim (url w) <> [] \/ blank (url w)).
Proof.
  unfold loadSource. split; [|split].
  - intros Hfilled. rewrite handleLoadCustomUrl_filled by exact Hfilled.
    simpl. repeat split. frame.
  - apply handleLoadCustomUrl_blank.
  - destruct (trim (url w)) eqn:Ht.
    + right. apply trim_nil_iff. exact Ht.
    + left. discriminate.
Qed.

Lemma loadSource_spec_witness :
  (let w := setUrl (lit "https://example.com/v.mp4") (onPlay (mount [])) in
   src (state (loadSource w)) = Some (url w)
   /\ playing (state (loadSource w)) = playing (state w)
   /\ keptExcept [Fsrc] w (loadSource w))
  /\ (let w := setUrl (lit "   ") (mount []) in loadSource w = w).
Proof.
  split; intros w.
  - apply (proj1 (loadSource_spec w)). vm_compute. discriminate.
  - apply (proj1 (proj2 (loadSource_spec w))). vm_compute.
    repeat constructor.
Defined.

(** C10: the text is stored as typed.  Trimming decides only whether to
    load: [src] is the pending text itself, and for a text with white space
    around it [src] is not the trimmed text. *)
Theorem loadSource_stores_untrimmed :
  (forall w : Widget,
     trim (url w) <> [] -> src (state (loadSource w)) = Some (url w))
  /\ (exists w : Widget,
        trim (url w) <> [] /\ trim (url w) <> url w
        /\ src (state (loadSource w)) <> Some (trim (url w))).
Proof.
  split.
  - intros w H. unfold loadSource.
    rewrite handleLoadCustomUrl_filled by exact H. reflexivity.
  - exists (setUrl paddedUrl (mount [])). vm_compute.
    repeat split; intros H; discriminate H.
Qed.

Lemma loadSource_stores_untrimmed_witness :
  let w := setUrl paddedUrl (mount []) in
  src (state (loadSource w)) = Some paddedUrl.
Proof.
  intros w. apply (proj1 loadSource_stores_untrimmed w).
  vm_compute. discriminate.
Defined.

(** ** Presets *)

Lemma streq_true_iff (a b : jsstring) : streq a b = true <-> a = b.
Proof.
  unfold streq. destruct (list_eq_dec N.eq_dec a b); split; congruence.
Qed.

(** C7: for a key of the catalog, [selectPreset] sets the pending url text
    and [src] to the catalog's url for that key and gives no other field a
    new value; for a key that is not in the catalog it changes nothing. *)
Theorem selectPreset_spec (k : jsstring) (w : Widget) :
  (forall v, In v presetVideos -> Preset.key v = k ->
     url (selectPreset k w) = Preset.url v
     /\ src (state (selectPreset k w)) = Some (Preset.url v)
     /\ stateKeptExcept [Fsrc] w (selectPreset k w)
     /\ liked (selectPreset k w) = liked w)
  /\ ((forall v, In v presetVideos -> Preset.key v <> k) ->
      selectPreset k w = w).
Proof.
  unfold selectPreset, handlePresetSelect, presetVideos, JS.find. simpl.
  split.
  - intros v [Hv | []] Hk. subst v. simpl in Hk.
    destruct (streq _ k) eqn:He.
    + simpl. repeat split. frame.
    + exfalso. apply Bool.not_true_iff_false in He. apply He.
      apply streq_true_iff. exact Hk.
  - intros Hno. destruct (streq _ k) eqn:He; auto.
    exfalso. apply streq_true_iff in He.
    eapply Hno; [left; reflexivity | exact He].
Qed.

Lemma selectPreset_spec_witness :
  (let w := mount [] in
   let target := lit "https://www.youtube.com/watch?v=kHr4yag0fqA" in
   url (selectPreset presetKey w) = target
   /\ src (state (selectPreset presetKey w)) = Some target
   /\ stateKeptExcept [Fsrc] w (selectPreset presetKey w)
   /\ liked (selectPreset presetKey w) = liked w)
  /\ selectPreset (lit "rain") (mount paddedUrl) = mount paddedUrl.
Proof.
  split.
  - intros w target.
    apply (proj1 (selectPreset_spec presetKey w)
             (Preset.mk presetKey
                [0x70ED; 0x5E26; 0x96E8; 0x6797; 0x767D; 0x566A; 0x97F3]%N
                target)).
    + left. reflexivity.
    + reflexivity.
  - apply (proj2 (selectPreset_spec (lit "rain") (mount paddedUrl))).
    intros v [Hv | []]. subst v. vm_compute. discriminate.
Defined.

(** ** The duration formatter *)

Lemma pad_below_100 (n : Z) :
  (0 <= n < 100)%Z -> Duration.pad n = Duration.twoDigits n.
Proof.
  intros Hn.
  assert (Hall : forallb
            (fun k => if string_dec (Duration.pad (Z.of_nat k))
                                    (Duration.twoDigits (Z.of_nat k))
                      then true else false)
            (seq 0 100) = true) by (vm_compute; reflexivity).
  rewrite forallb_forall in Hall.
  specialize (Hall (Z.to_nat n)).
  rewrite Z2Nat.id in Hall by lia.
  destruct (string_dec (Duration.pad n) (Duration.twoDigits n)) as [E|E]; auto.
  assert (false = true) as Habs; [|discriminate Habs].
  apply Hall. apply in_seq. lia.
Qed.

(** Under an hour the whole seconds are rendered as two digits of minutes,
    a colon and two digits of seconds. *)
Lemma formatWhole_under_an_hour (total : Z) :
  (0 <= total < 3600)%Z ->
  Duration.formatWhole total =
    (Duration.twoDigits (total / 60) ++ ":" ++ Duration.twoDigits (total mod 60))%string.
Proof.
  intros Ht. unfold Duration.formatWhole.
  destruct (Z.ltb_spec total 3600) as [_|]; [|lia].
  assert (0 <= total / 60 < 60)%Z
    by (split; [apply Z.div_pos | apply Z.div_lt_upper_bound]; lia).
  rewrite Z.mod_small by lia.
  rewrite !pad_below_100; auto.
  - pose proof (Z.mod_pos_bound total 60). lia.
  - lia.
Qed.

(** From an hour on the hours come first, then minutes and seconds on two
    digits each. *)
Lemma formatWhole_from_an_hour (total : Z) :
  (3600 <= total)%Z ->
  Duration.formatWhole total =
    (Duration.pad (total / 3600) ++ ":" ++ Duration.twoDigits ((total / 60) mod 60)
       ++ ":" ++ Duration.twoDigits (total mod 60))%string.
Proof.
  intros Ht. unfold Duration.formatWhole.
  destruct (Z.ltb_spec total 3600) as [|_]; [lia|].
  rewrite (pad_below_100 (n := (total / 60) mod 60)), (pad_below_100 (n := total mod 60)); auto.
  - pose proof (Z.mod_pos_bound total 60). lia.
  - pose proof (Z.mod_pos_bound (total / 60) 60). lia.
Qed.

(** C9: the formatter is a function defined on every number; it gives
    01:05 for 65, 01:01:01 for 3661, 00:00 for 0, and the default 00:00
    for NaN, for -5 and for every other NaN, infinite or negative input;
    otherwise a duration under an hour is rendered as zero-padded MM:SS and
    a longer one as HH:MM:SS. *)
Theorem format_spec :
  Duration.format 65%float = "01:05"%string
  /\ Duration.format 3661%float = "01:01:01"%string
  /\ Duration.format 0%float = "00:00"%string
  /\ Duration.format nan = "00:00"%string
  /\ Duration.format (-5)%float = "00:00"%string
  /\ (forall x : number,
        is_nan x = true \/ is_infinity x = true \/ (x <? 0)%float = true ->
        Duration.format x = "00:00"%string)
  /\ (forall x : number,
        is_nan x = false -> is_infinity x = false -> (x <? 0)%float = false ->
        let total := Duration.whole x in
        ((0 <= total < 3600)%Z ->
           Duration.format x =
             (Duration.twoDigits (total / 60) ++ ":"
                ++ Duration.twoDigits (total mod 60))%string)
        /\ ((3600 <= total)%Z ->
            Duration.format x =
              (Duration.pad (total / 3600) ++ ":"
                 ++ Duration.twoDigits ((total / 60) mod 60) ++ ":"
                 ++ Duration.twoDigits (total mod 60))%string)).
Proof.
  split; [vm_compute; reflexivity|].
  split; [vm_compute; reflexivity|].
  split; [vm_compute; reflexivity|].
  split; [vm_compute; reflexivity|].
  split; [vm_compute; reflexivity|].
  split.
  - intros x H. unfold Duration.format.
    destruct H as [H | [H | H]]; rewrite H;
      rewrite ?Bool.orb_true_r, ?Bool.orb_true_l; reflexivity.
  - intros x Hnan Hinf Hneg total. unfold Duration.format.
    rewrite Hnan, Hinf, Hneg.
    change (false || false || false) with false. cbv iota.
    split; intros Ht.
    + apply formatWhole_under_an_hour. exact Ht.
    + apply formatWhole_from_an_hour. exact Ht.
Qed.

Lemma format_spec_witness :
  Duration.format neg_infinity = "00:00"%string
  /\ (let total := Duration.whole 3599.5%float in
      Duration.format 3599.5%float =
        (Duration.twoDigits (total / 60) ++ ":"
           ++ Duration.twoDigits (total mod 60))%string)
  /\ (let total := Duration.whole 360000%float in
      Duration.format 360000%float =
        (Duration.pad (total / 3600) ++ ":"
           ++ Duration.twoDigits ((total / 60) mod 60) ++ ":"
           ++ Duration.twoDigits (total mod 60))%string).
Proof.
  pose proof format_spec as (_ & _ & _ & _ & _ & Hdefault & Hshape).
  split; [|split].
  - refine (Hdefault neg_infinity _). right. left. reflexivity.
  - refine (proj1 (Hshape 3599.5%float eq_refl eq_refl eq_refl) _).
    vm_compute. split; [discriminate | reflexivity].
  - refine (proj2 (Hshape 360000%float eq_refl eq_refl eq_refl) _).
    vm_compute. discriminate.
Defined.

(** The two renderings of the witness, evaluated. *)
Example format_samples :
  Duration.format 3599.5%float = "59:59"%string
  /\ Duration.format 360000%float = "100:00:00"%string
  /\ Duration.format infinity = "00:00"%string
  /\ Duration.format (-0)%float = "00:00"%string.
Proof. vm_compute. repeat split. Qed.

(** ** A session from mount to the end of the medium *)

Example session_load_play_end :
  let w0 := mount [] in
  let w1 := run [ChangeUrl (lit "https://example.com/v.mp4"); PressLoad] w0 in
  let w2 := dispatch PressPlayPause w1 in
  let w3 := dispatch (OnTimeUpdate (Some sampleElement)) w2 in
  let w4 := dispatch OnEnded w3 in
  src (state w1) = Some (lit "https://example.com/v.mp4")
  /\ playing (state w1) = false
  /\ playing (state w2) = true
  /\ played (state w3) = 0.25%float /\ playedSeconds (state w3) = 30%float
  /\ playing (state w4) = false.
Proof. vm_compute. repeat split. Qed.

(** * Further properties of the handlers *)

Ltac open_widget w :=
  let st := fresh "st" in
  let u := fresh "u" in
  let l := fresh "l" in
  destruct w as [st u l]; destruct st; simpl in *.

(** Case analysis on the guards of the handlers. *)
Ltac by_cases :=
  repeat (simpl;
    match goal with
    | |- context [if ?c then _ else _] => destruct c eqn:?
    | |- context [match ?x with Some _ => _ | None => _ end] => destruct x eqn:?
    end);
  simpl in *; try discriminate; try reflexivity.

(** ** Buffered progress *)

Lemma end_of_last_range (ranges : TimeRanges.t) (lastRange : number * number) :
  TimeRanges.end_ (ranges ++ [lastRange])
    (TimeRanges.length (ranges ++ [lastRange]) - 1) = Some (snd lastRange).
Proof.
  unfold TimeRanges.end_, TimeRanges.length.
  rewrite length_app. simpl.
  replace (List.length ranges + 1 - 1) with (List.length ranges) by lia.
  rewrite nth_error_app2 by lia. rewrite Nat.sub_diag. reflexivity.
Qed.

Lemma length_of_last_range (ranges : TimeRanges.t) (lastRange : number * number) :
  Nat.eqb (TimeRanges.length (ranges ++ [lastRange])) 0 = false.
Proof.
  unfold TimeRanges.length. rewrite length_app. simpl.
  apply Nat.eqb_neq. lia.
Qed.

Lemma handleProgress_buffered (el : HTMLVideoElement.t) (w : Widget)
    (ranges : TimeRanges.t) (lastRange : number * number) :
  seeking (state w) = false ->
  HTMLVideoElement.buffered el = Some (ranges ++ [lastRange]) ->
  handleProgress (Some el) w =
    setState (fun prevState =>
      with_loaded (snd lastRange / HTMLVideoElement.duration el)%float
        (with_loadedSeconds (snd lastRange) prevState)) w.
Proof.
  intros Hs Hb. unfold handleProgress.
  rewrite Hs, Hb, length_of_last_range, end_of_last_range. reflexivity.
Qed.

(** X1: with [seeking] false, a progress event takes the end of the last
    buffered range, whatever ranges come before it: [loadedSeconds] becomes
    that end, [loaded] that end divided by the element's duration, and no
    other field changes; with no element, no [buffered] property or no
    range at all the event changes nothing. *)
Theorem handleProgress_takes_last_range (el : HTMLVideoElement.t) (w : Widget) :
  (forall ranges lastStart lastEnd,
     seeking (state w) = false ->
     HTMLVideoElement.buffered el = Some (ranges ++ [(lastStart, lastEnd)]) ->
     loadedSeconds (state (handleProgress (Some el) w)) = lastEnd
     /\ loaded (state (handleProgress (Some el) w))
        = (lastEnd / HTMLVideoElement.duration el)%float
     /\ keptExcept [Floaded; FloadedSeconds] w (handleProgress (Some el) w))
  /\ (HTMLVideoElement.buffered el = None \/ HTMLVideoElement.buffered el = Some [] ->
      handleProgress (Some el) w = w)
  /\ handleProgress None w = w.
Proof.
  split; [|split].
  - intros ranges lastStart lastEnd Hs Hb.
    rewrite (handleProgress_buffered el w ranges (lastStart, lastEnd) Hs Hb).
    simpl. repeat split. frame.
  - intros [Hb | Hb]; unfold handleProgress; rewrite Hb;
      destruct (seeking (state w)); reflexivity.
  - reflexivity.
Qed.

Lemma handleProgress_takes_last_range_witness :
  let el := {| HTMLVideoElement.buffered :=
                 Some [(0%float, 10%float); (20%float, 45%float)];
               HTMLVideoElement.duration := 90%float;
               HTMLVideoElement.currentTime := 30%float |} in
  let idle := {| HTMLVideoElement.buffered := Some [];
                 HTMLVideoElement.duration := 90%float;
                 HTMLVideoElement.currentTime := 0%float |} in
  (loadedSeconds (state (handleProgress (Some el) (mount []))) = 45%float
   /\ loaded (state (handleProgress (Some el) (mount []))) = (45 / 90)%float
   /\ keptExcept [Floaded; FloadedSeconds] (mount [])
        (handleProgress (Some el) (mount [])))
  /\ handleProgress (Some idle) (mount []) = mount [].
Proof.
  intros el idle. split.
  - apply (proj1 (handleProgress_takes_last_range el (mount []))
             [(0%float, 10%float)] 20%float 45%float); reflexivity.
  - apply (proj1 (proj2 (handleProgress_takes_last_range idle (mount [])))).
    right. reflexivity.
Defined.

(** ** Reports are stored, not accumulated *)

Lemma handleTimeUpdate_truthy (el : HTMLVideoElement.t) (w : Widget) :
  seeking (state w) = false ->
  truthy_number (HTMLVideoElement.duration el) = true ->
  handleTimeUpdate (Some el) w =
    setState (fun prevState =>
      with_played
        (HTMLVideoElement.currentTime el / HTMLVideoElement.duration el)%float
        (with_playedSeconds (HTMLVideoElement.currentTime el) prevState)) w.
Proof.
  intros Hs Hd. unfold handleTimeUpdate. rewrite Hs, Hd. reflexivity.
Qed.

Lemma handleTimeUpdate_keeps_seeking playerRef (w : Widget) :
  seeking (state (handleTimeUpdate playerRef w)) = seeking (state w).
Proof.
  unfold handleTimeUpdate. destruct playerRef as [el|]; auto.
  destruct (seeking (state w)) eqn:Hs; auto.
  destruct (negb _); auto.
Qed.

Lemma handleProgress_keeps_seeking playerRef (w : Widget) :
  seeking (state (handleProgress playerRef w)) = seeking (state w).
Proof.
  unfold handleProgress. destruct playerRef as [el|]; auto.
  destruct (seeking (state w)) eqn:Hs; auto.
  destruct (HTMLVideoElement.buffered el) as [ranges|]; auto.
  destruct (Nat.eqb _ _); auto.
  destruct (TimeRanges.end_ _ _); auto.
Qed.

(** X2: the progress fields are re-derived from each report, not
    accumulated: a time update with a truthy duration, a progress event
    with a buffered range and a duration change give the same state whether
    or not a report of the same kind came just before. *)
Theorem reports_overwrite (earlier : option HTMLVideoElement.t)
    (el : HTMLVideoElement.t) (w : Widget) :
  (truthy_number (HTMLVideoElement.duration el) = true ->
     handleTimeUpdate (Some el) (handleTimeUpdate earlier w)
     = handleTimeUpdate (Some el) w)
  /\ (forall ranges lastRange,
        HTMLVideoElement.buffered el = Some (ranges ++ [lastRange]) ->
        handleProgress (Some el) (handleProgress earlier w)
        = handleProgress (Some el) w)
  /\ handleDurationChange (Some el) (handleDurationChange earlier w)
     = handleDurationChange (Some el) w.
Proof.
  split; [|split].
  - intros Hd. destruct (seeking (state w)) eqn:Hs.
    + rewrite (handleTimeUpdate_seeking earlier w Hs). reflexivity.
    + rewrite !handleTimeUpdate_truthy;
        rewrite ?handleTimeUpdate_keeps_seeking; auto.
      unfold handleTimeUpdate. destruct earlier as [e0|]; auto.
      rewrite Hs. destruct (negb _); reflexivity.
  - intros ranges lastRange Hb. destruct (seeking (state w)) eqn:Hs.
    + rewrite (handleProgress_seeking earlier w Hs). reflexivity.
    + rewrite !(handleProgress_buffered el _ ranges lastRange);
        rewrite ?handleProgress_keeps_seeking; auto.
      unfold handleProgress. destruct earlier as [e0|]; auto.
      rewrite Hs. destruct (HTMLVideoElement.buffered e0) as [r0|]; auto.
      destruct (Nat.eqb _ _); auto.
      destruct (TimeRanges.end_ _ _); reflexivity.
  - unfold handleDurationChange. destruct earlier; reflexivity.
Qed.

Lemma reports_overwrite_witness :
  let first := {| HTMLVideoElement.buffered := Some [(0%float, 10%float)];
                  HTMLVideoElement.duration := 60%float;
                  HTMLVideoElement.currentTime := 5%float |} in
  handleTimeUpdate (Some sampleElement) (handleTimeUpdate (Some first) (mount []))
  = handleTimeUpdate (Some sampleElement) (mount [])
  /\ handleProgress (Some sampleElement) (handleProgress (Some first) (mount []))
     = handleProgress (Some sampleElement) (mount []).
Proof.
  intros first. split.
  - apply (proj1 (reports_overwrite (Some first) sampleElement (mount []))).
    reflexivity.
  - apply (proj1 (proj2 (reports_overwrite (Some first) sampleElement (mount [])))
             [] (0%float, 40%float)).
    reflexivity.
Defined.

(** ** Reports of different kinds do not interfere *)

(** X3: time updates, progress events and duration changes write disjoint
    fields and read nothing the others write, so any two of them may arrive
    in either order with the same result. *)
Theorem reports_commute (a b : option HTMLVideoElement.t) (w : Widget) :
  handleProgress a (handleTimeUpdate b w) = handleTimeUpdate b (handleProgress a w)
  /\ handleDurationChange a (handleTimeUpdate b w)
     = handleTimeUpdate b (handleDurationChange a w)
  /\ handleDurationChange a (handleProgress b w)
     = handleProgress b (handleDurationChange a w).
Proof.
  unfold handleProgress, handleTimeUpdate, handleDurationChange.
  destruct a as [ea|], b as [eb|]; open_widget w;
    repeat split; by_cases.
Qed.

(** ** Duration changes *)

(** A duration change stores whatever duration the element reports and
    changes nothing else; unlike a time update it is suppressed neither by
    [seeking] nor by a zero or NaN duration, only by a missing element. *)
Theorem handleDurationChange_stores_any (el : HTMLVideoElement.t) (w : Widget) :
  duration (state (handleDurationChange (Some el) w)) = HTMLVideoElement.duration el
  /\ keptExcept [Fduration] w (handleDurationChange (Some el) w)
  /\ handleDurationChange None w = w
  /\ duration (state (handleDurationChange
                        (Some {| HTMLVideoElement.buffered := None;
                                 HTMLVideoElement.duration := nan;
                                 HTMLVideoElement.currentTime := 0%float |})
                        (scrubbing w))) = nan.
Proof.
  unfold handleDurationChange, scrubbing, setState. simpl.
  repeat split. frame.
Qed.

(** ** The toggles *)

(** X4: play/pause, mute and loop are involutions on the whole widget, and
    the three toggles are independent: any two give the same widget in
    either order. *)
Theorem toggles_involutive_and_independent (w : Widget) :
  handlePlayPause (handlePlayPause w) = w
  /\ handleToggleMuted (handleToggleMuted w) = w
  /\ handleToggleLoop (handleToggleLoop w) = w
  /\ handlePlayPause (handleToggleMuted w) = handleToggleMuted (handlePlayPause w)
  /\ handlePlayPause (handleToggleLoop w) = handleToggleLoop (handlePlayPause w)
  /\ handleToggleMuted (handleToggleLoop w) = handleToggleLoop (handleToggleMuted w).
Proof.
  unfold_ops. open_widget w.
  unfold with_playing, with_muted, with_loop; simpl.
  rewrite !negb_involutive. repeat split.
Qed.

(** ** Writers of [playing] *)

(** X5: stop, the element's play and pause and the end of the medium set
    [playing] without regard to what the play/pause button, an earlier play,
    pause or end left there: the last of them decides, except that the end
    of the medium follows [loop]. *)
Theorem playing_last_writer_wins (w : Widget) :
  (forall earlier, In earlier [handlePlayPause; onPlay; onPause; handleEnded] ->
     onPlay (earlier w) = onPlay w
     /\ onPause (earlier w) = onPause w
     /\ handleEnded (earlier w) = handleEnded w
     /\ handleStop (earlier w) = handleStop w)
  /\ handlePlayPause (onPlay w) = onPause w
  /\ handlePlayPause (onPause w) = onPlay w
  /\ handleEnded (handleToggleLoop w)
     = handleToggleLoop (if loop (state w) then onPause w else onPlay w).
Proof.
  split; [|split; [|split]].
  - intros earlier Hin. simpl in Hin.
    destruct Hin as [H | [H | [H | [H | []]]]]; subst earlier;
      unfold_ops; open_widget w; repeat split.
  - unfold_ops. open_widget w. reflexivity.
  - unfold_ops. open_widget w. reflexivity.
  - unfold_ops. open_widget w. destruct loop0; reflexivity.
Qed.

Lemma playing_last_writer_wins_witness :
  onPause (handlePlayPause (mount [])) = onPause (mount [])
  /\ handleStop (onPlay (mount [])) = handleStop (mount []).
Proof.
  split.
  - apply (proj1 (playing_last_writer_wins (mount [])) handlePlayPause).
    left. reflexivity.
  - apply (proj1 (playing_last_writer_wins (mount [])) onPlay).
    right. left. reflexivity.
Defined.

(** ** Fields no handler writes *)

Lemma dispatch_keeps_unwritten (e : Event) (w : Widget) :
  pip (state (dispatch e w)) = pip (state w)
  /\ controls (state (dispatch e w)) = controls (state w)
  /\ light (state (dispatch e w)) = light (state w)
  /\ volume (state (dispatch e w)) = volume (state w)
  /\ playbackRate (state (dispatch e w)) = playbackRate (state w)
  /\ seeking (state (dispatch e w)) = seeking (state w).
Proof.
  destruct e; simpl; unfold_ops;
    unfold handleLoadCustomUrl, handlePresetSelect, handleTimeUpdate,
      handleProgress, handleDurationChange, setState, setUrl;
    by_cases; repeat split; auto.
Qed.

Lemma run_keeps_unwritten (events : list Event) (w : Widget) :
  pip (state (run events w)) = pip (state w)
  /\ controls (state (run events w)) = controls (state w)
  /\ light (state (run events w)) = light (state w)
  /\ volume (state (run events w)) = volume (state w)
  /\ playbackRate (state (run events w)) = playbackRate (state w)
  /\ seeking (state (run events w)) = seeking (state w).
Proof.
  unfold run. revert w. induction events as [|e events IH]; intros w; simpl.
  - repeat split.
  - destruct (IH (dispatch e w)) as (H1 & H2 & H3 & H4 & H5 & H6).
    destruct (dispatch_keeps_unwritten e w) as (K1 & K2 & K3 & K4 & K5 & K6).
    rewrite H1, H2, H3, H4, H5, H6. repeat split; assumption.
Qed.

Lemma run_snoc (events : list Event) (e : Event) (w : Widget) :
  run (events ++ [e]) w = dispatch e (run events w).
Proof. unfold run. rewrite fold_left_app. reflexivity. Qed.

(** X6: no sequence of events, in whatever order and with whatever the
    element reports, changes [pip], [controls], [light], [volume],
    [playbackRate] or [seeking].  So after mounting, [seeking] stays false
    and a time update with a truthy duration is never suppressed. *)
Theorem unwritten_fields_and_live_clock (events : list Event) (w : Widget) :
  (pip (state (run events w)) = pip (state w)
   /\ controls (state (run events w)) = controls (state w)
   /\ light (state (run events w)) = light (state w)
   /\ volume (state (run events w)) = volume (state w)
   /\ playbackRate (state (run events w)) = playbackRate (state w)
   /\ seeking (state (run events w)) = seeking (state w))
  /\ (forall defaultUrl el,
        truthy_number (HTMLVideoElement.duration el) = true ->
        playedSeconds (state (run (events ++ [OnTimeUpdate (Some el)]) (mount defaultUrl)))
        = HTMLVideoElement.currentTime el
        /\ played (state (run (events ++ [OnTimeUpdate (Some el)]) (mount defaultUrl)))
           = (HTMLVideoElement.currentTime el / HTMLVideoElement.duration el)%float).
Proof.
  split.
  - apply run_keeps_unwritten.
  - intros defaultUrl el Hd. rewrite run_snoc. unfold dispatch.
    destruct (run_keeps_unwritten events (mount defaultUrl))
      as (_ & _ & _ & _ & _ & Hs).
    rewrite handleTimeUpdate_truthy by (rewrite ?Hs; auto).
    split; reflexivity.
Qed.

Lemma unwritten_fields_and_live_clock_witness :
  let events := [ChangeUrl paddedUrl; PressLoad; PressPlayPause;
                 OnProgress (Some sampleElement); PressStop; SelectPreset presetKey] in
  playedSeconds (state (run (events ++ [OnTimeUpdate (Some sampleElement)]) (mount [])))
  = 30%float
  /\ played (state (run (events ++ [OnTimeUpdate (Some sampleElement)]) (mount [])))
     = (30 / 120)%float.
Proof.
  intros events.
  apply (proj2 (unwritten_fields_and_live_clock events (mount [])) [] sampleElement).
  reflexivity.
Defined.

(** ** Sources *)

Lemma trim_filled_is_filled (s : jsstring) :
  truthy_string (trim s) = true -> truthy_string s = true.
Proof. destruct s; [vm_compute; auto | reflexivity]. Qed.

Lemma preset_urls_filled (v : Preset.t) :
  In v presetVideos ->
  truthy_string (trim (Preset.url v)) = true
  /\ truthy_string (Preset.url v) = true.
Proof.
  intros [Hv | []]. subst v. vm_compute. split; reflexivity.
Qed.

Lemma find_preset_in (selectedKey : jsstring) (v : Preset.t) :
  JS.find (fun video => streq (Preset.key video) selectedKey) presetVideos = Some v ->
  In v presetVideos /\ Preset.key v = selectedKey.
Proof.
  unfold JS.find. intros H. apply find_some in H. destruct H as [Hin Hk].
  split; auto. apply streq_true_iff. exact Hk.
Qed.

Lemma dispatch_keeps_loadedSourceOf (initial : option jsstring)
    (e : Event) (w : Widget) :
  loadedSourceOf initial w -> loadedSourceOf initial (dispatch e w).
Proof.
  unfold loadedSourceOf. intros Hw.
  destruct e; simpl; unfold_ops; simpl; auto.
  - unfold handleLoadCustomUrl.
    destruct (truthy_string (trim (url w))) eqn:Ht; auto.
    simpl. right. right. exists (url w). split; auto.
    apply truthy_trim_iff. exact Ht.
  - unfold handlePresetSelect.
    destruct (JS.find _ presetVideos) as [v|] eqn:Hf; auto.
    simpl. right. right. exists (Preset.url v). split; auto.
    apply truthy_trim_iff. apply preset_urls_filled.
    apply (find_preset_in _ Hf).
  - unfold handleTimeUpdate. by_cases; auto.
  - unfold handleProgress. by_cases; auto.
  - unfold handleDurationChange. by_cases; auto.
Qed.

Lemma rendered_player_src (w : Widget) (props : ReactPlayerProps) :
  player (render w) = Some props ->
  src (state w) = Some (props_src props)
  /\ truthy_string (props_src props) = true.
Proof.
  unfold render. simpl.
  destruct (src (state w)) as [text|]; [|discriminate].
  destruct (truthy_string text) eqn:Ht; [|discriminate].
  intros H. injection H as H. subst props. simpl. auto.
Qed.

(** X7: a blank text is never loaded.  After any sequence of events the
    source is absent, or still the one the sequence started from, or a text
    that is not empty after trimming; started from the default mount, the
    player is therefore rendered only with a source that is not blank. *)
Theorem source_is_never_blank (events : list Event) (w : Widget) :
  loadedSourceOf (src (state w)) (run events w)
  /\ (forall props,
        player (render (run events (mount []))) = Some props ->
        trim (props_src props) <> []
        /\ src (state (run events (mount []))) = Some (props_src props)).
Proof.
  assert (Hrun : forall evs initial w0,
            loadedSourceOf initial w0 -> loadedSourceOf initial (run evs w0)).
  { unfold run. induction evs as [|e evs IH]; intros initial w0 H0; simpl; auto.
    apply IH. apply dispatch_keeps_loadedSourceOf. exact H0. }
  split.
  - apply Hrun. right. left. reflexivity.
  - intros props Hp.
    pose proof (Hrun events (Some []) (mount [])
                  (or_intror (or_introl eq_refl))) as Hinv.
    apply rendered_player_src in Hp. destruct Hp as (Hsrc & Htext).
    split; [|exact Hsrc].
    unfold loadedSourceOf in Hinv. rewrite Hsrc in Hinv.
    destruct Hinv as [Hn | [Hi | (t & Ht & Hfilled)]].
    + discriminate Hn.
    + injection Hi as Hi. rewrite Hi in Htext. discriminate Htext.
    + injection Ht as Ht. rewrite Ht. exact Hfilled.
Qed.

Lemma source_is_never_blank_witness :
  let events := [ChangeUrl paddedUrl; PressLoad; PressPlayPause] in
  trim paddedUrl <> []
  /\ src (state (run events (mount []))) = Some paddedUrl.
Proof.
  intros events.
  apply (proj2 (source_is_never_blank events (mount []))
           {| props_src := paddedUrl; props_playing := true;
              props_controls := false; props_loop := false;
              props_volume := 1%float; props_muted := false |}).
  reflexivity.
Defined.

(** ** Playing needs a source *)

Lemma rendered_player_iff (w : Widget) :
  match player (render w) with Some _ => true | None => false end
  = truthy_src (src (state w)).
Proof.
  unfold render. simpl. destruct (src (state w)) as [text|]; auto.
  simpl. destruct (truthy_string text); reflexivity.
Qed.

Lemma dispatch_keeps_playingHasSource (e : Event) (w : Widget) :
  playingHasSource w -> deliverable e w = true ->
  playingHasSource (dispatch e w).
Proof.
  unfold playingHasSource. intros Hw He.
  destruct e; unfold deliverable in He; rewrite ?rendered_player_iff in He;
    simpl in He; simpl; unfold_ops; simpl; auto;
    try (apply negb_true_iff in He; apply negb_false_iff in He);
    try (intros _; exact He); try discriminate.
  - unfold handleLoadCustomUrl.
    destruct (truthy_string (trim (url w))) eqn:Ht; auto.
    simpl. intros _. apply trim_filled_is_filled. exact Ht.
  - unfold handlePresetSelect.
    destruct (JS.find _ presetVideos) as [v|] eqn:Hf; auto.
    simpl. intros _. apply preset_urls_filled. apply (find_preset_in _ Hf).
  - unfold handleTimeUpdate. by_cases; auto.
  - unfold handleProgress. by_cases; auto.
  - unfold handleDurationChange. by_cases; auto.
Qed.

(** X8: the rendered controls keep [playing] from being set without a
    source.  The play/pause and stop buttons are disabled and the media
    element is not rendered while the source is absent or empty, so along
    any sequence of events the tree can deliver, [playing] is true only
    while a source is present. *)
Theorem deliverable_events_keep_playing_with_source
    (events : list Event) (w : Widget) :
  playingHasSource w -> deliverableAll events w = true ->
  playingHasSource (run events w).
Proof.
  unfold run. revert w. induction events as [|e events IH]; intros w Hw Hd; simpl.
  - exact Hw.
  - simpl in Hd. apply andb_prop in Hd. destruct Hd as [He Hrest].
    apply IH; auto. apply dispatch_keeps_playingHasSource; assumption.
Qed.

Lemma deliverable_events_keep_playing_with_source_witness :
  let events := [SelectPreset presetKey; PressPlayPause; OnEnded; OnPlay;
                 PressStop; ChangeUrl paddedUrl; PressLoad; PressPlayPause] in
  playingHasSource (run events (mount [])).
Proof.
  intros events.
  apply (@deliverable_events_keep_playing_with_source events (mount [])).
  - intros H. discriminate H.
  - reflexivity.
Defined.

(** The handler alone does not check for a source: pressed on the freshly
    mounted widget it would set [playing] with nothing to play; the button
    that calls it is disabled there. *)
Example handlePlayPause_without_source :
  playing (state (handlePlayPause (mount []))) = true
  /\ truthy_src (src (state (handlePlayPause (mount [])))) = false
  /\ deliverable PressPlayPause (mount []) = false.
Proof. vm_compute. repeat split. Qed.

(** ** The Load button and its handler *)

(** X9: the Load button is disabled exactly when the pending text is
    blank, which is when the guard of its handler fails; the handler leaves
    the widget unchanged exactly when the button is disabled or [src] is
    the pending text already.  When the button is enabled, pressing it puts
    the pending text in [src], the media element is rendered with that text
    and with [playing] as it was, and stop and play/pause become
    available. *)
Theorem load_button_agrees_with_handler (w : Widget) :
  (loadDisabled (render w) = true <-> blank (url w))
  /\ (handleLoadCustomUrl w = w <->
      loadDisabled (render w) = true \/ src (state w) = Some (url w))
  /\ (loadDisabled (render w) = false ->
      exists props,
        player (render (handleLoadCustomUrl w)) = Some props
        /\ props_src props = url w
        /\ props_playing props = playing (state w)
        /\ stopDisabled (render (handleLoadCustomUrl w)) = false
        /\ playPauseDisabled (render (handleLoadCustomUrl w)) = false).
Proof.
  assert (Hdis : loadDisabled (render w) = negb (truthy_string (trim (url w))))
    by reflexivity.
  split; [|split].
  - rewrite Hdis, <- trim_nil_iff. destruct (trim (url w)); simpl; split;
      try reflexivity; discriminate.
  - rewrite Hdis. unfold handleLoadCustomUrl.
    destruct (truthy_string (trim (url w))) eqn:Ht; simpl.
    + split.
      * intros Heq. right.
        apply (f_equal (fun x => src (state x))) in Heq. simpl in Heq.
        symmetry. exact Heq.
      * intros [Habs | Hsrc]; [discriminate Habs|].
        unfold setState. open_widget w. rewrite Hsrc. reflexivity.
    + split; [left; reflexivity | reflexivity].
  - intros H. rewrite Hdis in H. apply negb_false_iff in H.
    unfold handleLoadCustomUrl. rewrite H.
    pose proof (trim_filled_is_filled _ H) as Hfilled.
    unfold render, setState. simpl. rewrite Hfilled. simpl.
    eexists. repeat split.
Qed.

Lemma load_button_agrees_with_handler_witness :
  handleLoadCustomUrl (mount (lit "a.mp4")) = mount (lit "a.mp4")
  /\ exists props,
       player (render (handleLoadCustomUrl (setUrl paddedUrl (mount []))))
       = Some props
       /\ props_src props = paddedUrl
       /\ props_playing props = false
       /\ stopDisabled (render (handleLoadCustomUrl (setUrl paddedUrl (mount []))))
          = false
       /\ playPauseDisabled
            (render (handleLoadCustomUrl (setUrl paddedUrl (mount [])))) = false.
Proof.
  split.
  - apply (proj2 (proj1 (proj2 (load_button_agrees_with_handler
                                  (mount (lit "a.mp4")))))).
    right. reflexivity.
  - apply (proj2 (proj2 (load_button_agrees_with_handler
                           (setUrl paddedUrl (mount []))))).
    reflexivity.
Defined.

(** ** Stopping and loading again *)

(** X10: stop clears the source and keeps the pending text, so pressing
    Load after stop brings back a source: with a text that is not blank,
    the result is the loaded widget, paused, with the progress and duration
    fields as they were before the stop; if the source was that text
    already, stop followed by Load is the same as a pause. *)
Theorem stop_then_load (w : Widget) :
  trim (url w) <> [] ->
  handleLoadCustomUrl (handleStop w) = onPause (handleLoadCustomUrl w)
  /\ keptExcept [Fsrc; Fplaying] w (handleLoadCustomUrl (handleStop w))
  /\ (src (state w) = Some (url w) ->
      handleLoadCustomUrl (handleStop w) = onPause w).
Proof.
  intros Hfilled.
  assert (Hstop : trim (url (handleStop w)) <> []) by exact Hfilled.
  rewrite (handleLoadCustomUrl_filled (handleStop w) Hstop).
  rewrite (handleLoadCustomUrl_filled w Hfilled).
  unfold_ops. open_widget w. repeat split.
  - frame.
  - intros Hsrc. rewrite Hsrc. reflexivity.
Qed.

Lemma stop_then_load_witness :
  let w := run [ChangeUrl paddedUrl; PressLoad; PressPlayPause;
                OnTimeUpdate (Some sampleElement)] (mount []) in
  handleLoadCustomUrl (handleStop w) = onPause (handleLoadCustomUrl w)
  /\ keptExcept [Fsrc; Fplaying] w (handleLoadCustomUrl (handleStop w))
  /\ (src (state w) = Some (url w) ->
      handleLoadCustomUrl (handleStop w) = onPause w).
Proof.
  intros w. apply (stop_then_load w). vm_compute. discriminate.
Defined.

(** ** Loading twice *)

(** X11: loading is idempotent.  Pressing Load twice, selecting the same
    preset twice or stopping twice gives what doing it once gives, and
    after a preset of the catalog was selected, Load changes nothing. *)
Theorem loads_are_idempotent (selectedKey : jsstring) (w : Widget) :
  handleLoadCustomUrl (handleLoadCustomUrl w) = handleLoadCustomUrl w
  /\ handlePresetSelect selectedKey (handlePresetSelect selectedKey w)
     = handlePresetSelect selectedKey w
  /\ handleStop (handleStop w) = handleStop w
  /\ ((exists v, In v presetVideos /\ Preset.key v = selectedKey) ->
      handleLoadCustomUrl (handlePresetSelect selectedKey w)
      = handlePresetSelect selectedKey w).
Proof.
  split; [|split; [|split]].
  - unfold handleLoadCustomUrl at 2.
    destruct (truthy_string (trim (url w))) eqn:Ht.
    + unfold handleLoadCustomUrl, setState. simpl. rewrite Ht. reflexivity.
    + unfold handleLoadCustomUrl. rewrite Ht. reflexivity.
  - unfold handlePresetSelect.
    destruct (JS.find _ presetVideos) as [v|] eqn:Hf; rewrite ?Hf; reflexivity.
  - reflexivity.
  - intros (v & Hin & Hk). unfold handlePresetSelect.
    destruct (JS.find _ presetVideos) as [found|] eqn:Hf.
    + destruct (preset_urls_filled (proj1 (find_preset_in _ Hf)))
        as [Htrim _].
      unfold handleLoadCustomUrl, setState, setUrl. simpl.
      rewrite Htrim. reflexivity.
    + exfalso. unfold JS.find in Hf.
      pose proof (find_none _ _ Hf v Hin) as Hno. simpl in Hno.
      apply Bool.not_true_iff_false in Hno. apply Hno.
      apply streq_true_iff. exact Hk.
Qed.

Lemma loads_are_idempotent_witness :
  handleLoadCustomUrl (handlePresetSelect presetKey (mount paddedUrl))
  = handlePresetSelect presetKey (mount paddedUrl).
Proof.
  apply (proj2 (proj2 (proj2 (loads_are_idempotent presetKey (mount paddedUrl))))).
  eexists. split; [left; reflexivity | reflexivity].
Defined.

(** ** The player reference *)

Lemma playerRefAfter_snoc (calls : list (option HTMLVideoElement.t))
    (player : option HTMLVideoElement.t) :
  playerRefAfter (calls ++ [player]) = setPlayerRef player (playerRefAfter calls).
Proof. unfold playerRefAfter. rewrite fold_left_app. reflexivity. Qed.

(** X12: the ref callback never clears the reference.  A call with null
    leaves it as it is and a call with an element replaces it, so once any
    call has passed an element the reference holds one of the elements
    passed, whatever calls with null follow; it is null only as long as
    every call passed null. *)
Theorem setPlayerRef_never_clears (calls : list (option HTMLVideoElement.t)) :
  playerRefAfter (calls ++ [None]) = playerRefAfter calls
  /\ (forall el, playerRefAfter (calls ++ [Some el]) = Some el)
  /\ (forall el, In (Some el) calls ->
        exists kept, playerRefAfter calls = Some kept /\ In (Some kept) calls)
  /\ (playerRefAfter calls = None <-> Forall (fun player => player = None) calls).
Proof.
  split; [|split; [|split]].
  - apply playerRefAfter_snoc.
  - intros el. apply playerRefAfter_snoc.
  - induction calls as [|player calls IH] using rev_ind; intros el Hin.
    + destruct Hin.
    + rewrite playerRefAfter_snoc. destruct player as [latest|]; simpl.
      * exists latest. split; auto. apply in_or_app. right. left. reflexivity.
      * apply in_app_or in Hin. destruct Hin as [Hin | [Hin | []]];
          [|discriminate Hin].
        destruct (IH el Hin) as (kept & Hk & Hkin).
        exists kept. split; auto. apply in_or_app. left. exact Hkin.
  - induction calls as [|player calls IH] using rev_ind.
    + split; [constructor | reflexivity].
    + rewrite playerRefAfter_snoc. rewrite Forall_app.
      destruct player as [latest|]; simpl.
      * split; [discriminate|].
        intros [_ Hlast]. inversion Hlast as [|? ? Habs]. discriminate Habs.
      * rewrite IH. split.
        -- intros H. split; auto.
        -- intros [H _]. exact H.
Qed.

Lemma setPlayerRef_never_clears_witness :
  exists kept,
    playerRefAfter [None; Some sampleElement; None; None] = Some kept
    /\ In (Some kept) [None; Some sampleElement; None; None].
Proof.
  apply (proj1 (proj2 (proj2
           (setPlayerRef_never_clears [None; Some sampleElement; None; None])))
           sampleElement).
  right. left. reflexivity.
Defined.

(** ** The preset selector *)

Lemma streq_refl (a : jsstring) : streq a a = true.
Proof. apply streq_true_iff. reflexivity. Qed.

(** X13: a change of the selection looks at the first selected key only.
    When that key is in the catalog, the pending text and [src] both become
    the catalog's url for it and nothing else changes; when nothing is
    selected or the first key is not in the catalog, whatever keys follow,
    the widget stays as it is. *)
Theorem onSelectionChange_first_key (keys : list jsstring) (w : Widget) :
  (forall v, In v presetVideos -> hd_error keys = Some (Preset.key v) ->
     url (onSelectionChange keys w) = Preset.url v
     /\ src (state (onSelectionChange keys w)) = Some (Preset.url v)
     /\ stateKeptExcept [Fsrc] w (onSelectionChange keys w)
     /\ liked (onSelectionChange keys w) = liked w)
  /\ ((forall v, In v presetVideos -> hd_error keys <> Some (Preset.key v)) ->
      onSelectionChange keys w = w)
  /\ onSelectionChange keys w = onSelectionChange (firstn 1 keys) w.
Proof.
  split; [|split].
  - intros v Hin Hhd. destruct keys as [|selectedKey rest]; [discriminate Hhd|].
    simpl in Hhd. injection Hhd as Hhd. subst selectedKey.
    assert (Hkey : truthy_string (Preset.key v) = true)
      by (destruct Hin as [Hv | []]; subst v; reflexivity).
    simpl. rewrite Hkey. unfold handlePresetSelect.
    destruct (JS.find _ presetVideos) as [found|] eqn:Hf.
    + destruct (find_preset_in _ Hf) as [Hfin _].
      assert (found = v) as ->
        by (destruct Hin as [Hv | []]; destruct Hfin as [Hw | []]; congruence).
      unfold_ops. simpl. repeat split. frame.
    + exfalso. unfold JS.find in Hf.
      pose proof (find_none _ _ Hf v Hin) as Hno. simpl in Hno.
      rewrite streq_refl in Hno. discriminate Hno.
  - intros Hno. destruct keys as [|selectedKey rest]; auto. simpl.
    destruct (truthy_string selectedKey); auto.
    unfold handlePresetSelect.
    destruct (JS.find _ presetVideos) as [v|] eqn:Hf; auto.
    destruct (find_preset_in _ Hf) as [Hin Hk].
    exfalso. apply (Hno v Hin). simpl. rewrite Hk. reflexivity.
  - destruct keys as [|selectedKey rest]; reflexivity.
Qed.

Lemma onSelectionChange_first_key_witness :
  (url (onSelectionChange [presetKey; lit "rain"] (mount []))
   = lit "https://www.youtube.com/watch?v=kHr4yag0fqA"
   /\ src (state (onSelectionChange [presetKey; lit "rain"] (mount [])))
      = Some (lit "https://www.youtube.com/watch?v=kHr4yag0fqA")
   /\ stateKeptExcept [Fsrc] (mount [])
        (onSelectionChange [presetKey; lit "rain"] (mount []))
   /\ liked (onSelectionChange [presetKey; lit "rain"] (mount [])) = false)
  /\ onSelectionChange [lit "rain"; presetKey] (mount paddedUrl) = mount paddedUrl.
Proof.
  split.
  - apply (proj1 (onSelectionChange_first_key [presetKey; lit "rain"] (mount []))
             (Preset.mk presetKey
                [0x70ED; 0x5E26; 0x96E8; 0x6797; 0x767D; 0x566A; 0x97F3]%N
                (lit "https://www.youtube.com/watch?v=kHr4yag0fqA"))).
    + left. reflexivity.
    + reflexivity.
  - apply (proj1 (proj2 (onSelectionChange_first_key [lit "rain"; presetKey]
                           (mount paddedUrl)))).
    intros v [Hv | []]. subst v. vm_compute. discriminate.
Defined.

(** ** Controls and the media element *)



(** ** The elapsed-time readout *)

(** X15: the elapsed-time readout is the stored [duration] times [played],
    not [playedSeconds], and a time update does not store the duration: it
    divides by the element's duration and leaves the stored one alone.  So
    after a time update the readout is the stored duration times the
    element's fraction, and until a duration change has arrived it is
    computed from the initial duration 0, whatever the current time. *)
Theorem elapsed_readout_uses_stored_duration
    (el : HTMLVideoElement.t) (w : Widget) :
  seeking (state w) = false ->
  truthy_number (HTMLVideoElement.duration el) = true ->
  let w' := handleTimeUpdate (Some el) w in
  elapsedSeconds (render w')
  = (duration (state w)
     * (HTMLVideoElement.currentTime el / HTMLVideoElement.duration el))%float
  /\ totalSeconds (render w') = duration (state w)
  /\ progressValue (render w')
     = (HTMLVideoElement.currentTime el / HTMLVideoElement.duration el * 100)%float
  /\ elapsedSeconds (render (handleDurationChange (Some el) w'))
     = (HTMLVideoElement.duration el
        * (HTMLVideoElement.currentTime el / HTMLVideoElement.duration el))%float.
Proof.
  intros Hs Hd w'. subst w'.
  rewrite (handleTimeUpdate_truthy el w Hs Hd).
  unfold handleDurationChange, render, setState. simpl. repeat split.
Qed.

Lemma elapsed_readout_uses_stored_duration_witness :
  let w' := handleTimeUpdate (Some sampleElement) (mount []) in
  elapsedSeconds (render w') = (0 * (30 / 120))%float
  /\ totalSeconds (render w') = 0%float
  /\ progressValue (render w') = (30 / 120 * 100)%float
  /\ elapsedSeconds (render (handleDurationChange (Some sampleElement) w'))
     = (120 * (30 / 120))%float.
Proof.
  apply (@elapsed_readout_uses_stored_duration sampleElement (mount []));
    reflexivity.
Defined.

(** On the sample element: 30 s into the medium the readout shows 0 s until
    the duration change arrives, then 30 s. *)
Example elapsed_readout_before_duration_change :
  let w' := handleTimeUpdate (Some sampleElement) (mount []) in
  playedSeconds (state w') = 30%float
  /\ elapsedSeconds (render w') = 0%float
  /\ elapsedSeconds (render (handleDurationChange (Some sampleElement) w')) = 30%float.
Proof. vm_compute. repeat split. Qed.

(** * The round trip of a fraction through a product and a quotient

    [onTimeUpdate (p * d) d] stores the quotient of the product [p * d] by
    [d].  Both operations round; this part bounds the two roundings from
    the specification of the binary64 operations and shows that the stored
    fraction is within the tolerance of [p] for every duration from 2^-1050
    up. *)

Module Rounding.

Local Open Scope R_scope.
Local Unset Implicit Arguments.

Lemma bpow_pos (e : Z) : 0 < bpow e.
Proof. unfold bpow. apply powerRZ_lt. lra. Qed.

Lemma bpow_add (a b : Z) : bpow (a + b) = bpow a * bpow b.
Proof. unfold bpow. apply powerRZ_add. lra. Qed.

Lemma bpow_0 : bpow 0 = 1.
Proof. reflexivity. Qed.

Lemma bpow_1 : bpow 1 = 2.
Proof. unfold bpow. simpl. lra. Qed.

Lemma bpow_succ (e : Z) : bpow (e + 1) = 2 * bpow e.
Proof. rewrite bpow_add, bpow_1. lra. Qed.

Lemma bpow_opp (e : Z) : bpow (- e) = / bpow e.
Proof.
  pose proof (bpow_add e (- e)) as H. rewrite Z.add_opp_diag_r, bpow_0 in H.
  pose proof (bpow_pos e). apply Rmult_eq_reg_l with (bpow e); [|lra].
  rewrite <- H. field. lra.
Qed.

Lemma bpow_sub (a b : Z) : bpow (a - b) = bpow a / bpow b.
Proof.
  unfold Z.sub. rewrite bpow_add, bpow_opp. reflexivity.
Qed.

Lemma bpow_IZR (k : Z) : (0 <= k)%Z -> bpow k = IZR (2 ^ k).
Proof.
  intros Hk. unfold bpow.
  rewrite <- (Z2Nat.id k) by exact Hk.
  rewrite <- pow_powerRZ. rewrite <- pow_IZR. reflexivity.
Qed.

Lemma bpow_le (a b : Z) : (a <= b)%Z -> bpow a <= bpow b.
Proof.
  intros H. replace b with (a + (b - a))%Z by lia.
  rewrite bpow_add. rewrite (bpow_IZR (b - a)) by lia.
  pose proof (bpow_pos a).
  assert (1 <= IZR (2 ^ (b - a))).
  { apply IZR_le. pose proof (Z.pow_pos_nonneg 2 (b - a)). lia. }
  nra.
Qed.

Lemma bpow_lt (a b : Z) : (a < b)%Z -> bpow a < bpow b.
Proof.
  intros H. pose proof (bpow_le (a + 1) b ltac:(lia)) as H1.
  rewrite bpow_succ in H1. pose proof (bpow_pos a). lra.
Qed.

Lemma bpow_lt_inv (a b : Z) : bpow a < bpow b -> (a < b)%Z.
Proof.
  intros H. destruct (Z_lt_le_dec a b) as [Hlt|Hle]; auto.
  pose proof (bpow_le b a Hle). lra.
Qed.

Lemma bpow_le_inv (a b : Z) : bpow a <= bpow b -> (a <= b)%Z.
Proof.
  intros H. destruct (Z_lt_le_dec b a) as [Hlt|Hle]; auto.
  pose proof (bpow_lt b a Hlt). lra.
Qed.

(** Binary digits *)

Lemma digits2_pos_bounds (p : positive) :
  (2 ^ (Zpos (digits2_pos p) - 1) <= Zpos p < 2 ^ Zpos (digits2_pos p))%Z.
Proof.
  induction p as [p IH|p IH|]; simpl digits2_pos.
  - rewrite Pos2Z.inj_succ.
    replace (Z.succ (Zpos (digits2_pos p)) - 1)%Z
      with (Z.succ (Zpos (digits2_pos p) - 1))%Z by lia.
    rewrite !Z.pow_succ_r by lia. lia.
  - rewrite Pos2Z.inj_succ.
    replace (Z.succ (Zpos (digits2_pos p)) - 1)%Z
      with (Z.succ (Zpos (digits2_pos p) - 1))%Z by lia.
    rewrite !Z.pow_succ_r by lia. lia.
  - simpl. lia.
Qed.

Lemma Zdigits2_bounds (m : Z) :
  (0 < m)%Z -> (2 ^ (Zdigits2 m - 1) <= m < 2 ^ Zdigits2 m)%Z /\ (1 <= Zdigits2 m)%Z.
Proof.
  destruct m as [|p|p]; try lia. intros _. simpl Zdigits2.
  split; [apply digits2_pos_bounds | lia].
Qed.

Lemma Zdigits2_nonneg (m : Z) : (0 <= Zdigits2 m)%Z.
Proof. destruct m; simpl; lia. Qed.

Lemma Zdigits2_unique (m k : Z) :
  (2 ^ (k - 1) <= m < 2 ^ k)%Z -> (1 <= k)%Z -> Zdigits2 m = k.
Proof.
  intros Hm Hk.
  assert (0 < m)%Z by (pose proof (Z.pow_pos_nonneg 2 (k - 1)); lia).
  destruct (Zdigits2_bounds m H) as [Hd Hd1].
  destruct (Z.lt_trichotomy (Zdigits2 m) k) as [Hlt | [Heq | Hgt]]; auto; exfalso.
  - assert (2 ^ Zdigits2 m <= 2 ^ (k - 1))%Z by (apply Z.pow_le_mono_r; lia). lia.
  - assert (2 ^ k <= 2 ^ (Zdigits2 m - 1))%Z by (apply Z.pow_le_mono_r; lia). lia.
Qed.

Lemma Zdigits2_bpow (m : Z) :
  (0 < m)%Z -> bpow (Zdigits2 m - 1) <= IZR m < bpow (Zdigits2 m).
Proof.
  intros Hm. destruct (Zdigits2_bounds m Hm) as [[Hlo Hhi] Hd].
  rewrite !bpow_IZR by lia. split; [apply IZR_le | apply IZR_lt]; assumption.
Qed.

Lemma fexp_eq (e : Z) : fexp prec emax e = Z.max (e - 53) (-1074).
Proof. reflexivity. Qed.

Lemma fexp_mono (a b : Z) : (a <= b)%Z -> (fexp prec emax a <= fexp prec emax b)%Z.
Proof. rewrite !fexp_eq. lia. Qed.

(** Shifting a mantissa right keeps the located value *)

Lemma IZR_xO (p : positive) : IZR (Zpos p~0) = 2 * IZR (Zpos p).
Proof. change (Zpos p~0) with (2 * Zpos p)%Z. rewrite mult_IZR. reflexivity. Qed.

Lemma IZR_xI (p : positive) : IZR (Zpos p~1) = 2 * IZR (Zpos p) + 1.
Proof.
  change (Zpos p~1) with (2 * Zpos p + 1)%Z. rewrite plus_IZR, mult_IZR. reflexivity.
Qed.

Lemma shr_1_located (mrs : shr_record) (e : Z) (t : R) :
  located_record mrs e t -> located_record (shr_1 mrs) (e + 1) t.
Proof.
  unfold located_record. destruct mrs as [m r s].
  pose proof (bpow_pos e) as He.
  destruct m as [|[p|p|]|p]; destruct r, s;
    cbv [shr_1 shr_m shr_r shr_s loc_of_shr_record located orb];
    rewrite bpow_succ, ?(IZR_xO p), ?(IZR_xI p);
    intros [Hm H]; (split; [lia|]); try (exfalso; lia); lra.
Qed.

Lemma iter_pos_located (p : positive) :
  forall (mrs : shr_record) (e : Z) (t : R),
    located_record mrs e t ->
    located_record (SpecFloat.iter_pos shr_1 p mrs) (e + Zpos p) t.
Proof.
  induction p as [p IH|p IH|]; intros mrs e t H; simpl.
  - replace (e + Zpos p~1)%Z with (e + 1 + Zpos p + Zpos p)%Z by lia.
    apply IH. apply IH. apply shr_1_located. exact H.
  - replace (e + Zpos p~0)%Z with (e + Zpos p + Zpos p)%Z by lia.
    apply IH. apply IH. exact H.
  - apply shr_1_located. exact H.
Qed.

Lemma loc_of_record_of_loc (m : Z) (l : location) :
  loc_of_shr_record (shr_record_of_loc m l) = l
  /\ shr_m (shr_record_of_loc m l) = m.
Proof. destruct l as [|[| |]]; split; reflexivity. Qed.

Lemma shr_fexp_located (m e : Z) (l : location) (t : R) :
  (0 <= m)%Z -> located m l e t ->
  located_record (fst (shr_fexp prec emax m e l)) (snd (shr_fexp prec emax m e l)) t
  /\ snd (shr_fexp prec emax m e l) = Z.max e (fexp prec emax (Zdigits2 m + e)).
Proof.
  intros Hm Ht. unfold shr_fexp, shr.
  assert (Hstart : located_record (shr_record_of_loc m l) e t).
  { unfold located_record. destruct (loc_of_record_of_loc m l) as [-> ->]. auto. }
  destruct (fexp prec emax (Zdigits2 m + e) - e)%Z as [|n|n] eqn:Hn; simpl.
  - split; [exact Hstart | lia].
  - split; [|lia]. apply iter_pos_located. exact Hstart.
  - split; [exact Hstart | lia].
Qed.

(** Rounding to nearest *)

Lemma eps_pos : 0 < eps.
Proof. apply bpow_pos. Qed.

Lemma eta_pos : 0 < eta.
Proof. apply bpow_pos. Qed.

Lemma located_bounds (m : Z) (l : location) (e : Z) (t : R) :
  located m l e t -> IZR m * bpow e <= t < IZR m * bpow e + bpow e.
Proof.
  pose proof (bpow_pos e). destruct l as [|[| |]]; unfold located; lra.
Qed.

Lemma IZR_bpow_lt (a b e : Z) : IZR a * bpow e < IZR b * bpow e -> (a < b)%Z.
Proof.
  intros H. apply lt_IZR. pose proof (bpow_pos e). nra.
Qed.

Lemma IZR_bpow_le (a b e : Z) : IZR a * bpow e <= IZR b * bpow e -> (a <= b)%Z.
Proof.
  intros H. apply le_IZR. pose proof (bpow_pos e). nra.
Qed.

Lemma located_on_grid (m : Z) (l : location) (e : Z) (t : R) (k : Z) :
  located m l e t -> t = IZR k * bpow e -> m = k /\ l = loc_Exact.
Proof.
  intros Hl Hk. pose proof (located_bounds m l e t Hl) as Hb.
  pose proof (bpow_pos e) as He. rewrite Hk in Hb.
  assert (m <= k)%Z by (apply (IZR_bpow_le m k e); lra).
  assert (k < m + 1)%Z.
  { apply (IZR_bpow_lt k (m + 1) e). rewrite plus_IZR. lra. }
  assert (m = k) by lia. subst k. split; auto.
  destruct l as [|[| |]]; unfold located in Hl; auto; exfalso; lra.
Qed.

Lemma round_nearest_even_spec (m : Z) (l : location) (e : Z) (t : R) :
  located m l e t ->
  let m1 := round_nearest_even m l in
  (m1 = m \/ (m1 = (m + 1)%Z /\ IZR m * bpow e < t))
  /\ IZR m1 * bpow e - bpow e / 2 <= t <= IZR m1 * bpow e + bpow e / 2.
Proof.
  intros Hl. pose proof (bpow_pos e) as He.
  destruct l as [|[| |]]; unfold located in Hl; cbv [round_nearest_even].
  - split; [left; reflexivity | lra].
  - destruct (Z.even m).
    + split; [left; reflexivity | lra].
    + split; [right; split; [reflexivity | lra] | rewrite plus_IZR; lra].
  - split; [left; reflexivity | lra].
  - split; [right; split; [reflexivity | lra] | rewrite plus_IZR; lra].
Qed.

(** The unit in the last place after a shift is small against the value. *)
Lemma ulp_bound (m e : Z) (t : R) :
  (0 <= m)%Z -> IZR m * bpow e <= t ->
  (e <= fexp prec emax (Zdigits2 m + e))%Z ->
  bpow (fexp prec emax (Zdigits2 m + e)) <= eps * t + eta.
Proof.
  intros Hm Ht He. rewrite fexp_eq in *.
  pose proof eps_pos. pose proof eta_pos. pose proof (bpow_pos e).
  assert (0 <= t).
  { assert (0 <= IZR m) by (apply IZR_le; exact Hm). nra. }
  destruct (Z.max_spec (Zdigits2 m + e - 53) (-1074)) as [[Hlt ->] | [Hge ->]].
  - fold eta. nra.
  - assert (0 < m)%Z.
    { destruct (Z.eq_dec m 0) as [-> |]; [|lia]. simpl in *. lia. }
    destruct (Zdigits2_bpow m H3) as [Hlo _].
    replace (Zdigits2 m + e - 53)%Z with ((Zdigits2 m - 1) + e + (-52))%Z by lia.
    rewrite !bpow_add. fold eps.
    assert (Hx : bpow (Zdigits2 m - 1) * bpow e <= t).
    { apply Rle_trans with (IZR m * bpow e); [|exact Ht].
      apply Rmult_le_compat_r; lra. }
    assert (bpow (Zdigits2 m - 1) * bpow e * eps <= t * eps)
      by (apply Rmult_le_compat_r; lra).
    lra.
Qed.

(** A shifted normal mantissa is at least 2^52. *)
Lemma large_mantissa (m e : Z) (m' : Z) (e1 : Z) (t : R) :
  (0 <= m)%Z -> IZR m * bpow e <= t ->
  e1 = fexp prec emax (Zdigits2 m + e) -> (e <= e1)%Z -> e1 <> (-1074)%Z ->
  t < IZR (m' + 1) * bpow e1 ->
  (2 ^ 52 <= m')%Z.
Proof.
  intros Hm Ht He1 Hle Hne Hup. rewrite fexp_eq in He1.
  assert (He1' : e1 = (Zdigits2 m + e - 53)%Z) by lia.
  assert (0 < m)%Z.
  { destruct (Z.eq_dec m 0) as [-> |]; [|lia]. simpl in *. lia. }
  destruct (Zdigits2_bpow m H) as [Hlo _].
  pose proof (bpow_pos e). pose proof (bpow_pos e1).
  assert (Hb : bpow (e1 + 52) <= t).
  { replace (e1 + 52)%Z with ((Zdigits2 m - 1) + e)%Z by lia.
    rewrite bpow_add.
    apply Rle_trans with (IZR m * bpow e); [|exact Ht].
    apply Rmult_le_compat_r; lra. }
  rewrite Z.add_comm, bpow_add in Hb. rewrite (bpow_IZR 52) in Hb by lia.
  assert (2 ^ 52 < m' + 1)%Z by (apply (IZR_bpow_lt _ _ e1); lra).
  lia.
Qed.

Lemma binary_round_aux_spec (sx : bool) (mx ex : Z) (lx : location) (t : R) :
  (0 <= mx)%Z -> located mx lx ex t ->
  (ex <= fexp prec emax (Zdigits2 mx + ex))%Z \/ lx = loc_Exact ->
  exists m2 e2 : Z,
    (0 <= m2)%Z
    /\ binary_round_aux prec emax sx mx ex lx =
       match m2 with
       | Z0 => S754_zero sx
       | Zpos m =>
           if (e2 <=? emax - prec)%Z then S754_finite sx m e2 else S754_infinity sx
       | Zneg _ => S754_nan
       end
    /\ IZR m2 * bpow e2 <= t + (eps * t + eta) / 2
    /\ t - 3 * (eps * t + eta) <= IZR m2 * bpow e2
    /\ (e2 = (-1074)%Z \/ bpow (e2 + 52) <= IZR m2 * bpow e2
        \/ (e2 = ex /\ IZR m2 * bpow e2 = t))
    /\ (forall k : Z,
          t <= IZR k * bpow (Z.max ex (fexp prec emax (Zdigits2 mx + ex))) ->
          IZR m2 * bpow e2
          <= IZR k * bpow (Z.max ex (fexp prec emax (Zdigits2 mx + ex)))).
Proof.
  intros Hmx Hlx Hprec.
  pose proof eps_pos as Heps. pose proof eta_pos as Heta.
  assert (Heps1 : eps <= 1 / 2).
  { unfold eps. pose proof (bpow_le (-52) (-1) ltac:(lia)) as H.
    replace (bpow (-1)) with (1 / 2) in H; [exact H|].
    unfold bpow. simpl. field. }
  pose proof (located_bounds _ _ _ _ Hlx) as Hbx.
  assert (Ht0 : 0 <= t).
  { pose proof (bpow_pos ex). assert (0 <= IZR mx) by (apply IZR_le; exact Hmx). nra. }
  unfold binary_round_aux.
  destruct (shr_fexp_located mx ex lx t Hmx Hlx) as [[Hm1 Hl1] He1].
  destruct (shr_fexp prec emax mx ex lx) as [mrs1 e1]. simpl fst in *. simpl snd in *.
  set (m' := shr_m mrs1) in *. set (l' := loc_of_shr_record mrs1) in *.
  pose proof (round_nearest_even_spec m' l' e1 t Hl1) as [Hr1 Hr2].
  set (m1 := round_nearest_even m' l') in *.
  assert (Hm1' : (0 <= m1)%Z) by (destruct Hr1 as [-> | [-> _]]; lia).
  assert (Hl2 : located m1 loc_Exact e1 (IZR m1 * bpow e1)) by reflexivity.
  destruct (shr_fexp_located m1 e1 loc_Exact _ Hm1' Hl2) as [[Hm2 Hl2'] He2].
  destruct (shr_fexp prec emax m1 e1 loc_Exact) as [mrs2 e2]. simpl fst in *. simpl snd in *.
  set (m2 := shr_m mrs2) in *.
  pose proof (located_bounds _ _ _ _ Hl1) as Hb1.
  pose proof (located_bounds _ _ _ _ Hl2') as Hb2.
  pose proof (bpow_pos e1) as Hbe1. pose proof (bpow_pos e2) as Hbe2.
  exists m2, e2. split; [exact Hm2|]. split; [reflexivity|].
  (* the grid property holds in every case *)
  assert (Hgrid : forall k : Z, t <= IZR k * bpow e1 ->
                                IZR m1 * bpow e1 <= IZR k * bpow e1).
  { intros k Hk. destruct Hr1 as [-> | [-> Hlt]]; [lra|].
    assert (m' < k)%Z by (apply (IZR_bpow_lt _ _ e1); lra).
    assert (IZR (m' + 1) <= IZR k) by (apply IZR_le; lia). nra. }
  destruct (Z_lt_le_dec (fexp prec emax (Zdigits2 mx + ex)) ex) as [Hno | Hshift].
  - (* the mantissa fits: nothing is shifted out and the value is exact *)
    destruct Hprec as [Hprec | Hexact]; [lia|]. subst lx.
    unfold located in Hlx.
    assert (Hex1 : e1 = ex) by lia.
    rewrite Hex1 in Hl1.
    destruct (located_on_grid _ _ _ _ mx Hl1 Hlx) as [Hm' Hl'].
    assert (Hm1x : m1 = mx).
    { unfold m1. rewrite Hl'. cbv [round_nearest_even]. exact Hm'. }
    assert (Hex2 : e2 = ex) by (rewrite Hm1x, Hex1 in He2; lia).
    rewrite Hex2, Hm1x, Hex1 in Hl2'.
    assert (Hv : m2 = mx) by (apply (located_on_grid _ _ _ _ mx Hl2'); reflexivity).
    rewrite Hv, Hex2, <- Hlx.
    split; [nra|]. split; [nra|]. split.
    + right. right. split; reflexivity.
    + intros k Hk. exact Hk.
  - (* the value is rounded at the exponent fexp *)
    assert (He1' : e1 = fexp prec emax (Zdigits2 mx + ex)) by lia.
    assert (Hu1 : bpow e1 <= eps * t + eta).
    { rewrite He1'. apply ulp_bound; auto. lra. }
    assert (Hmax : Z.max ex (fexp prec emax (Zdigits2 mx + ex)) = e1) by lia.
    rewrite Hmax.
    destruct (Z_lt_le_dec e1 (fexp prec emax (Zdigits2 m1 + e1))) as [Hshift2 | Hno2].
    + (* the rounded mantissa overflows its digits and is shifted again *)
      assert (He2' : e2 = fexp prec emax (Zdigits2 m1 + e1)) by lia.
      assert (Hu2 : bpow e2 <= eps * (IZR m1 * bpow e1) + eta).
      { rewrite He2'. apply ulp_bound; auto; [lra | lia]. }
      assert (Hepsa : 0 <= eps * (eps * t + eta)) by nra.
      assert (Hepsb : eps * (IZR m1 * bpow e1) <= eps * (t + bpow e1 / 2))
        by (apply Rmult_le_compat_l; lra).
      split; [lra|]. split; [nra|]. split.
      * destruct (Z.eq_dec e2 (-1074)) as [|Hne]; [left; assumption|].
        right. left.
        assert (2 ^ 52 <= m2)%Z.
        { apply (large_mantissa m1 e1 m2 e2 (IZR m1 * bpow e1) Hm1'
                   (Rle_refl _) He2' ltac:(lia) Hne).
          rewrite plus_IZR. lra. }
        rewrite Z.add_comm, bpow_add, (bpow_IZR 52) by lia.
        assert (IZR (2 ^ 52) <= IZR m2) by (apply IZR_le; assumption).
        apply Rmult_le_compat_r; lra.
      * intros k Hk. pose proof (Hgrid k Hk). lra.
    + (* no second shift *)
      assert (Hex2 : e2 = e1) by lia.
      rewrite Hex2 in Hl2'.
      assert (Hv : m2 = m1) by (apply (located_on_grid _ _ _ _ m1 Hl2'); reflexivity).
      rewrite Hv, Hex2.
      split; [lra|]. split; [lra|]. split.
      * destruct (Z.eq_dec e1 (-1074)) as [|Hne]; [left; assumption|].
        right. left.
        assert (2 ^ 52 <= m')%Z.
        { apply (large_mantissa mx ex m' e1 t Hmx (proj1 Hbx) He1'
                   ltac:(lia) Hne).
          rewrite plus_IZR. lra. }
        assert (m' <= m1)%Z by (destruct Hr1 as [-> | [-> _]]; lia).
        rewrite Z.add_comm, bpow_add, (bpow_IZR 52) by lia.
        assert (IZR (2 ^ 52) <= IZR m1) by (apply IZR_le; lia).
        apply Rmult_le_compat_r; lra.
      * intros k Hk. apply Hgrid. exact Hk.
Qed.

(** Valid finite numbers *)

Lemma valid_canonical (s : bool) (m : positive) (e : Z) :
  valid_binary (S754_finite s m e) = true -> canonical m e.
Proof.
  unfold SpecFloat.valid_binary, bounded, canonical_mantissa, canonical.
  intros H. apply andb_prop in H. destruct H as [H1 H2].
  apply Z.eqb_eq in H1. apply Z.leb_le in H2. split; [exact H1 | exact H2].
Qed.

Lemma canonical_facts (m : positive) (e : Z) :
  canonical m e ->
  (Zpos m < 2 ^ 53)%Z /\ (-1074 <= e)%Z /\ (e <= 971)%Z
  /\ (e <> (-1074)%Z -> (2 ^ 52 <= Zpos m)%Z).
Proof.
  intros [Hc He]. rewrite fexp_eq in Hc.
  pose proof (digits2_pos_bounds m) as [Hlo Hhi].
  assert (Hd : (Zpos (digits2_pos m) <= 53)%Z) by lia.
  split; [|split; [lia | split; [lia|]]].
  - assert (2 ^ Zpos (digits2_pos m) <= 2 ^ 53)%Z by (apply Z.pow_le_mono_r; lia).
    lia.
  - intros Hne. assert (Zpos (digits2_pos m) = 53%Z) by lia.
    rewrite H in Hlo. exact Hlo.
Qed.

Lemma canonical_value_lt (m : positive) (e : Z) :
  canonical m e -> IZR (Zpos m) * bpow e <= bpow 1024 - bpow 971.
Proof.
  intros Hc. destruct (canonical_facts m e Hc) as (Hm & _ & He & _).
  pose proof (bpow_pos e). pose proof (bpow_le e 971 He).
  assert (IZR (Zpos m) <= IZR (2 ^ 53 - 1)) by (apply IZR_le; lia).
  rewrite minus_IZR in H1. rewrite <- (bpow_IZR 53) in H1 by lia.
  replace (bpow 1024) with (bpow 53 * bpow 971)
    by (rewrite <- bpow_add; reflexivity).
  assert (0 < IZR (Zpos m)) by (apply IZR_lt; lia).
  assert (IZR (Zpos m) * bpow e <= IZR (Zpos m) * bpow 971)
    by (apply Rmult_le_compat_l; lra).
  assert (IZR (Zpos m) * bpow 971 <= (bpow 53 - 1) * bpow 971).
  { apply Rmult_le_compat_r; [|lra]. pose proof (bpow_pos 971). lra. }
  lra.
Qed.

(** What the comparisons of the hypotheses say *)

Lemma compare_cont_Eq (a b : positive) : Pos.compare_cont Eq a b = Pos.compare a b.
Proof. reflexivity. Qed.

Lemma fraction_cases (x : spec_float) :
  SFleb (S754_zero false) x = true -> SFleb x SF_one = true ->
  valid_binary x = true ->
  (exists s, x = S754_zero s)
  \/ (exists m e,
        x = S754_finite false m e /\ canonical m e /\ (e <= -52)%Z
        /\ ((m = 4503599627370496%positive /\ e = (-52)%Z)
            \/ IZR (Zpos m) * bpow e <= 1 - bpow (-53))).
Proof.
  intros H0 H1 Hv. destruct x as [s|s| |s m e].
  - left. exists s. reflexivity.
  - destruct s; discriminate.
  - discriminate.
  - right. destruct s; [discriminate|]. exists m, e.
    pose proof (valid_canonical _ _ _ Hv) as Hc.
    destruct (canonical_facts m e Hc) as (Hm & Hemin & He & Hn).
    split; [reflexivity|]. split; [exact Hc|].
    clear Hv H0.
    pose proof (bpow_pos e) as Hbe.
    assert (Hmle : IZR (Zpos m) <= bpow 53 - 1).
    { clear H1. rewrite (bpow_IZR 53) by lia. rewrite <- minus_IZR.
      apply IZR_le. lia. }
    assert (Hmpos : 0 < IZR (Zpos m)) by (apply IZR_lt; reflexivity).
    unfold SFleb, SF_one, SFcompare in H1. rewrite compare_cont_Eq in H1.
    destruct (Z.compare_spec e (-52)) as [Heq | Hlt | Hgt]; try discriminate.
    + split; [lia|].
      destruct (Pos.compare_spec m 4503599627370496) as [Hmeq | Hmlt | Hmgt];
        try discriminate.
      * left. split; assumption.
      * right. subst e. apply Pos2Z.pos_lt_pos in Hmlt.
        assert (IZR (Zpos m) <= bpow 52 - 1).
        { rewrite (bpow_IZR 52) by lia. rewrite <- minus_IZR. apply IZR_le.
          change (2 ^ 52)%Z with 4503599627370496%Z. lia. }
        replace (bpow (-53)) with (bpow (-52) / 2) by (unfold bpow; simpl; field).
        assert (bpow 52 * bpow (-52) = 1) by (rewrite <- bpow_add; reflexivity).
        pose proof (bpow_pos (-52)). nra.
    + split; [lia|]. right.
      assert (bpow e <= bpow (-53)) by (apply bpow_le; lia).
      assert (bpow 53 * bpow (-53) = 1) by (rewrite <- bpow_add; reflexivity).
      pose proof (bpow_pos (-53)).
      assert (IZR (Zpos m) * bpow e <= IZR (Zpos m) * bpow (-53))
        by (apply Rmult_le_compat_l; lra).
      assert (IZR (Zpos m) * bpow (-53) <= (bpow 53 - 1) * bpow (-53))
        by (apply Rmult_le_compat_r; lra).
      lra.
Qed.

Lemma duration_cases (x : spec_float) :
  SFleb SF_least x = true -> SFltb x (S754_infinity false) = true ->
  valid_binary x = true ->
  exists m e,
    x = S754_finite false m e /\ canonical m e
    /\ bpow (-1050) <= IZR (Zpos m) * bpow e.
Proof.
  intros H0 H1 Hv. destruct x as [s|s| |s m e].
  - discriminate.
  - destruct s; discriminate.
  - discriminate.
  - destruct s; [discriminate|]. exists m, e.
    pose proof (valid_canonical _ _ _ Hv) as Hc.
    destruct (canonical_facts m e Hc) as (Hm & Hemin & He & Hn).
    split; [reflexivity|]. split; [exact Hc|].
    clear Hv H1.
    unfold SFleb, SF_least, SFcompare in H0. rewrite compare_cont_Eq in H0.
    pose proof (bpow_pos e) as Hbe.
    destruct (Z.compare_spec (-1074) e) as [Heq | Hlt | Hgt]; try discriminate.
    + subst e.
      destruct (Pos.compare_spec 16777216 m) as [Hmeq | Hmlt | Hmgt];
        try discriminate.
      * subst m. replace (bpow (-1050)) with (bpow 24 * bpow (-1074))
          by (rewrite <- bpow_add; reflexivity).
        rewrite (bpow_IZR 24) by lia. apply Rle_refl.
      * apply Pos2Z.pos_lt_pos in Hmlt.
        replace (bpow (-1050)) with (bpow 24 * bpow (-1074))
          by (rewrite <- bpow_add; reflexivity).
        apply Rmult_le_compat_r; [lra|].
        rewrite (bpow_IZR 24) by lia. apply IZR_le.
        change (2 ^ 24)%Z with 16777216%Z. lia.
    + assert (2 ^ 52 <= Zpos m)%Z by (apply Hn; lia).
      apply Rle_trans with (bpow 52 * bpow e).
      * rewrite <- bpow_add. apply bpow_le. lia.
      * apply Rmult_le_compat_r; [lra|].
        rewrite (bpow_IZR 52) by lia. apply IZR_le. exact H.
Qed.

Lemma tolerance_leb (z : spec_float) :
  valid_binary z = true ->
  (z = S754_zero false \/ exists m e, z = S754_finite false m e) ->
  SF2R z <= bpow (-20) ->
  SFleb z SF_tolerance = true.
Proof.
  intros Hv [-> | (m & e & ->)] Hz; [reflexivity|].
  cbv [SF2R] in Hz.
  pose proof (valid_canonical _ _ _ Hv) as Hc.
  destruct (canonical_facts m e Hc) as (Hm & Hemin & He & Hn).
  clear Hv.
  unfold SFleb, SF_tolerance, SFcompare. rewrite compare_cont_Eq.
  pose proof (bpow_pos e) as Hbe.
  destruct (Z.compare_spec e (-72)) as [Heq | Hlt | Hgt]; auto.
  - subst e.
    destruct (Pos.compare_spec m 4503599627370496) as [Hmeq | Hmlt | Hmgt]; auto.
    exfalso. apply Pos2Z.pos_lt_pos in Hmgt.
    assert (IZR (Zpos m) * bpow (-72) <= bpow 52 * bpow (-72))
      by (rewrite <- bpow_add; exact Hz).
    assert (Zpos m <= 2 ^ 52)%Z.
    { apply (IZR_bpow_le _ _ (-72)). rewrite <- (bpow_IZR 52) by lia. exact H. }
    change (2 ^ 52)%Z with 4503599627370496%Z in H0. lia.
  - exfalso.
    assert (2 ^ 52 <= Zpos m)%Z by (apply Hn; lia).
    assert (bpow (-19) <= IZR (Zpos m) * bpow e).
    { apply Rle_trans with (bpow 52 * bpow e).
      - rewrite <- bpow_add. apply bpow_le. lia.
      - apply Rmult_le_compat_r; [lra|].
        rewrite (bpow_IZR 52) by lia. apply IZR_le. exact H. }
    pose proof (bpow_lt (-20) (-19) ltac:(lia)). lra.
Qed.

(** The result of a rounding is a number when its value is below 2^1024 *)

Lemma round_result (sx : bool) (m2 e2 : Z) :
  (0 <= m2)%Z ->
  (m2 = 0%Z \/ (e2 <= 971)%Z) ->
  let z := match m2 with
           | Z0 => S754_zero sx
           | Zpos m =>
               if (e2 <=? emax - prec)%Z then S754_finite sx m e2
               else S754_infinity sx
           | Zneg _ => S754_nan
           end in
  (z = S754_zero sx \/ exists m e, z = S754_finite sx m e)
  /\ SF2R z = if sx then - (IZR m2 * bpow e2) else IZR m2 * bpow e2.
Proof.
  intros Hm He. destruct m2 as [|m|m]; cbv beta iota zeta delta [SF2R].
  - split; [left; reflexivity|]. destruct sx; lra.
  - destruct He as [He | He]; [discriminate He|].
    change (emax - prec)%Z with 971%Z.
    destruct (Z.leb_spec e2 971) as [_ | Hgt]; [|lia].
    split; [right; eauto | reflexivity].
  - lia.
Qed.

Lemma small_exponent (m2 e2 k : Z) :
  (0 < m2)%Z -> IZR m2 * bpow e2 < bpow k -> (e2 < k)%Z.
Proof.
  intros Hm Hv. apply bpow_lt_inv.
  pose proof (bpow_pos e2).
  assert (1 <= IZR m2) by (apply IZR_le; lia).
  nra.
Qed.

Lemma Zdigits2_shift (m : positive) (k : Z) :
  (0 <= k)%Z -> Zdigits2 (Zpos m * 2 ^ k) = (Zdigits2 (Zpos m) + k)%Z.
Proof.
  intros Hk. destruct (Zdigits2_bounds (Zpos m) ltac:(lia)) as [[Hlo Hhi] Hd].
  apply Zdigits2_unique; [|lia].
  replace (Zdigits2 (Zpos m) + k - 1)%Z with ((Zdigits2 (Zpos m) - 1) + k)%Z by lia.
  rewrite !Z.pow_add_r by lia.
  pose proof (Z.pow_pos_nonneg 2 k ltac:(lia) Hk). nia.
Qed.

(** Multiplication of a fraction by a duration *)

Lemma SFmul_fraction (mp : positive) (ep : Z) (md : positive) (ed : Z) :
  (ep <= -52)%Z ->
  ((mp = 4503599627370496%positive /\ ep = (-52)%Z)
   \/ IZR (Zpos mp) * bpow ep <= 1 - bpow (-53)) ->
  canonical md ed ->
  let t := (IZR (Zpos mp) * bpow ep) * (IZR (Zpos md) * bpow ed) in
  let x := SFmul prec emax (S754_finite false mp ep) (S754_finite false md ed) in
  (x = S754_zero false \/ exists m e, x = S754_finite false m e)
  /\ SF2R x <= t + (eps * t + eta) / 2
  /\ t - 3 * (eps * t + eta) <= SF2R x.
Proof.
  intros Hep Hp Hd t x.
  assert (Hloc : located (Zpos (mp * md)) loc_Exact (ep + ed) t).
  { unfold located, t. rewrite Pos2Z.inj_mul, mult_IZR, bpow_add. ring. }
  destruct (binary_round_aux_spec false (Zpos (mp * md)) (ep + ed) loc_Exact t
              ltac:(lia) Hloc (or_intror eq_refl))
    as (m2 & e2 & Hm2 & Heq & Hup & Hlo & Hsize & Hgrid).
  assert (Hx : x = match m2 with
                   | Z0 => S754_zero false
                   | Zpos m =>
                       if (e2 <=? emax - prec)%Z then S754_finite false m e2
                       else S754_infinity false
                   | Zneg _ => S754_nan
                   end) by exact Heq.
  destruct (canonical_facts md ed Hd) as (Hmd & Hedmin & Hed & Hdn).
  pose proof (canonical_value_lt md ed Hd) as HD.
  pose proof (bpow_pos ed) as Hbed. pose proof (bpow_pos ep) as Hbep.
  pose proof eps_pos as Heps. pose proof eta_pos as Heta.
  assert (HDpos : 0 < IZR (Zpos md) * bpow ed).
  { apply Rmult_lt_0_compat; [apply IZR_lt; lia | exact Hbed]. }
  assert (HPpos : 0 < IZR (Zpos mp) * bpow ep).
  { apply Rmult_lt_0_compat; [apply IZR_lt; lia | exact Hbep]. }
  assert (Heta971 : eta / 2 < bpow 971).
  { unfold eta. pose proof (bpow_lt (-1074) 971 ltac:(lia)).
    pose proof (bpow_pos (-1074)). lra. }
  assert (Hfin : m2 = 0%Z \/ (e2 <= 971)%Z).
  { destruct (Z.eq_dec m2 0) as [|Hne]; [left; assumption | right].
    assert (Hpos : (0 < m2)%Z) by lia.
    assert (Hv : IZR m2 * bpow e2 < bpow 1024 ->
                 bpow (e2 + 52) <= IZR m2 * bpow e2 -> (e2 <= 971)%Z).
    { intros H1 H2. assert (e2 + 52 < 1024)%Z by (apply bpow_lt_inv; lra). lia. }
    destruct Hsize as [He | [Hbig | [He _]]]; [lia | | lia].
    apply Hv; [|exact Hbig].
    destruct Hp as [[Hmp Hep1] | Hp].
    - (* the fraction is one: the product is the duration, on its own grid *)
      subst mp ep.
      assert (Hgrid_e :
                Z.max (-52 + ed)
                  (fexp prec emax (Zdigits2 (Zpos (4503599627370496 * md)) + (-52 + ed)))
                = ed).
      { rewrite Pos2Z.inj_mul, Z.mul_comm.
        change (Zpos 4503599627370496) with (2 ^ 52)%Z.
        rewrite Zdigits2_shift by lia.
        replace (Zdigits2 (Zpos md) + 52 + (-52 + ed))%Z
          with (Zpos (digits2_pos md) + ed)%Z by (simpl Zdigits2; lia).
        destruct Hd as [Hc _]. rewrite Hc. lia. }
      rewrite Hgrid_e in Hgrid.
      assert (Ht : t = IZR (Zpos md) * bpow ed).
      { unfold t. change (Zpos 4503599627370496) with (2 ^ 52)%Z.
        rewrite <- (bpow_IZR 52) by lia. rewrite <- bpow_add.
        change (52 + -52)%Z with 0%Z. rewrite bpow_0. ring. }
      pose proof (Hgrid (Zpos md) ltac:(rewrite Ht; apply Rle_refl)) as Hle.
      pose proof (bpow_pos 971). lra.
    - (* the fraction is below one by at least 2^-53 *)
      assert (Hh : bpow (-53) = eps / 2) by (unfold eps, bpow; simpl; field).
      assert (Ht : t <= (1 - eps / 2) * (IZR (Zpos md) * bpow ed)).
      { unfold t. apply Rmult_le_compat_r; lra. }
      assert (Heps2 : eps <= 1 / 2).
      { unfold eps. pose proof (bpow_le (-52) (-1) ltac:(lia)) as H.
        replace (bpow (-1)) with (1 / 2) in H; [exact H|].
        unfold bpow. simpl. field. }
      assert (Ht2 : t * (1 + eps / 2)
                    <= (1 - eps / 2) * (IZR (Zpos md) * bpow ed) * (1 + eps / 2))
        by (apply Rmult_le_compat_r; lra).
      assert (Hsq : (1 - eps / 2) * (IZR (Zpos md) * bpow ed) * (1 + eps / 2)
                    <= IZR (Zpos md) * bpow ed) by nra.
      lra. }
  destruct (round_result false m2 e2 Hm2 Hfin) as [Hshape Hval].
  rewrite <- Hx in Hshape, Hval.
  split; [exact Hshape|]. rewrite Hval. split; assumption.
Qed.

(** Division *)

Lemma new_location_located (m2 q r e : Z) (t : R) :
  (0 < m2)%Z -> (0 <= r < m2)%Z ->
  t = (IZR q + IZR r / IZR m2) * bpow e ->
  located q (new_location m2 r) e t.
Proof.
  intros Hm2 Hr Ht.
  pose proof (bpow_pos e) as Hb.
  assert (HM : 0 < IZR m2) by (apply IZR_lt; exact Hm2).
  set (rho := IZR r / IZR m2) in *.
  assert (Hrho : rho * IZR m2 = IZR r) by (unfold rho; field; lra).
  assert (Hr0 : 0 <= IZR r) by (apply IZR_le; lia).
  assert (Hr1 : IZR r < IZR m2) by (apply IZR_lt; lia).
  assert (Hrho0 : 0 <= rho) by (unfold rho; apply Rmult_le_pos; [lra | left; apply Rinv_0_lt_compat; lra]).
  assert (Hrho1 : rho < 1).
  { apply Rmult_lt_reg_r with (IZR m2); [exact HM|]. lra. }
  assert (Hzero : r = 0%Z -> t = IZR q * bpow e).
  { intros ->. unfold rho in Ht. rewrite Ht. field. lra. }
  assert (Hpos : r <> 0%Z -> 0 < rho).
  { intros Hne. assert (0 < IZR r) by (apply IZR_lt; lia).
    apply Rmult_lt_reg_r with (IZR m2); [exact HM|]. lra. }
  assert (Hlt : (2 * r < m2)%Z -> rho < 1 / 2).
  { intros H. apply IZR_lt in H. rewrite mult_IZR in H.
    apply Rmult_lt_reg_r with (IZR m2); [exact HM|]. lra. }
  assert (Heq : (2 * r = m2)%Z -> rho = 1 / 2).
  { intros H. apply (f_equal IZR) in H. rewrite mult_IZR in H.
    apply Rmult_eq_reg_r with (IZR m2); [|lra]. lra. }
  assert (Hgt : (m2 < 2 * r)%Z -> 1 / 2 < rho).
  { intros H. apply IZR_lt in H. rewrite mult_IZR in H.
    apply Rmult_lt_reg_r with (IZR m2); [exact HM|]. lra. }
  assert (Hexp : t = IZR q * bpow e + rho * bpow e) by (rewrite Ht; ring).
  assert (Hcase : forall c, (c = Lt -> rho < 1 / 2) -> (c = Eq -> rho = 1 / 2) ->
                            (c = Gt -> 1 / 2 < rho) -> 0 < rho ->
                            located q (loc_Inexact c) e t).
  { intros c HLt HEq HGt Hp. destruct c; unfold located.
    - rewrite Hexp, (HEq eq_refl). lra.
    - pose proof (HLt eq_refl). rewrite Hexp. nra.
    - pose proof (HGt eq_refl). rewrite Hexp. nra. }
  unfold new_location, new_location_even, new_location_odd.
  destruct (Z.even m2) eqn:Heven.
  - destruct (Z.eqb_spec r 0) as [Hr'|Hr'].
    + unfold located. apply Hzero. exact Hr'.
    + apply Hcase;
        [ intros Hc; apply Hlt; apply Z.compare_lt_iff; exact Hc
        | intros Hc; apply Heq; apply Z.compare_eq_iff; exact Hc
        | intros Hc; apply Hgt; apply Z.compare_gt_iff; exact Hc
        | apply Hpos; exact Hr' ].
  - destruct (Z.eqb_spec r 0) as [Hr'|Hr'].
    + unfold located. apply Hzero. exact Hr'.
    + assert (Hodd : (2 * r <> m2)%Z).
      { intros H. rewrite <- H in Heven. rewrite Z.even_mul in Heven.
        discriminate Heven. }
      destruct (Z.compare_spec (2 * r + 1) m2) as [Hc | Hc | Hc].
      * apply Hcase;
          [ intros _; apply Hlt; lia | discriminate | discriminate
          | apply Hpos; exact Hr' ].
      * apply Hcase;
          [ intros _; apply Hlt; lia | discriminate | discriminate
          | apply Hpos; exact Hr' ].
      * apply Hcase;
          [ discriminate | discriminate | intros _; apply Hgt; lia
          | apply Hpos; exact Hr' ].
Qed.

Lemma SFdiv_core_located (m1 : positive) (e1 : Z) (m2 : positive) (e2 : Z) :
  let c := SFdiv_core_binary prec emax (Zpos m1) e1 (Zpos m2) e2 in
  let q := fst (fst c) in
  let e' := snd (fst c) in
  (0 <= q)%Z
  /\ located q (snd c) e'
       ((IZR (Zpos m1) * bpow e1) / (IZR (Zpos m2) * bpow e2))
  /\ (e' <= fexp prec emax (Zdigits2 q + e'))%Z.
Proof.
  unfold SFdiv_core_binary.
  set (d1 := Zdigits2 (Zpos m1)). set (d2 := Zdigits2 (Zpos m2)).
  set (e' := Z.min (fexp prec emax (d1 + e1 - (d2 + e2))) (e1 - e2)).
  set (s := (e1 - e2 - e')%Z).
  assert (Hs : (0 <= s)%Z) by (unfold s, e'; lia).
  set (m' := match s with
             | Z0 => Zpos m1
             | Zpos _ => Z.shiftl (Zpos m1) s
             | Zneg _ => 0%Z
             end).
  assert (Hm' : m' = (Zpos m1 * 2 ^ s)%Z).
  { unfold m'. destruct s as [|p|p] eqn:Hsp.
    - simpl. lia.
    - apply Z.shiftl_mul_pow2. lia.
    - lia. }
  pose proof (Z_div_mod m' (Zpos m2) ltac:(lia)) as Hdiv.
  destruct (Z.div_eucl m' (Zpos m2)) as [q r]. destruct Hdiv as [Hqr Hr].
  simpl fst. simpl snd.
  assert (Hpow : (0 < 2 ^ s)%Z) by (apply Z.pow_pos_nonneg; lia).
  assert (Hq : (0 <= q)%Z) by nia.
  split; [exact Hq|]. split.
  - apply new_location_located; [lia | exact Hr |].
    pose proof (bpow_pos e2). pose proof (bpow_pos e').
    assert (HM : 0 < IZR (Zpos m2)) by (apply IZR_lt; lia).
    assert (He1 : bpow e1 = bpow s * bpow e' * bpow e2).
    { rewrite <- !bpow_add. f_equal. unfold s. lia. }
    assert (Hm'R : IZR (Zpos m1) * bpow s = IZR (Zpos m2) * IZR q + IZR r).
    { rewrite (bpow_IZR s) by exact Hs. rewrite <- mult_IZR, <- Hm', Hqr.
      rewrite plus_IZR, mult_IZR. reflexivity. }
    rewrite He1.
    replace (IZR (Zpos m1) * (bpow s * bpow e' * bpow e2))
      with ((IZR (Zpos m1) * bpow s) * bpow e' * bpow e2) by ring.
    rewrite Hm'R. field. lra.
  - apply Z.le_trans with (fexp prec emax (d1 + e1 - (d2 + e2))); [unfold e'; lia|].
    apply fexp_mono.
    assert (Hk : (d1 - d2 + s <= Zdigits2 q)%Z).
    { destruct (Z_le_gt_dec (d1 - d2 + s) 0) as [Hle | Hgt].
      - pose proof (Zdigits2_nonneg q). lia.
      - destruct (Zdigits2_bounds (Zpos m1) ltac:(lia)) as [[Hlo1 _] Hd1].
        destruct (Zdigits2_bounds (Zpos m2) ltac:(lia)) as [[_ Hhi2] Hd2].
        fold d1 in Hlo1, Hd1. fold d2 in Hhi2, Hd2.
        assert (Hbig : (2 ^ (d1 - d2 + s - 1) * 2 ^ d2 <= m')%Z).
        { rewrite <- Z.pow_add_r by lia.
          replace (d1 - d2 + s - 1 + d2)%Z with ((d1 - 1) + s)%Z by lia.
          rewrite Z.pow_add_r by lia. rewrite Hm'. nia. }
        assert (Hp1 : (0 < 2 ^ (d1 - d2 + s - 1))%Z) by (apply Z.pow_pos_nonneg; lia).
        assert (Hq1 : (2 ^ (d1 - d2 + s - 1) <= q)%Z) by nia.
        assert (Hq0 : (0 < q)%Z) by lia.
        destruct (Zdigits2_bounds q Hq0) as [[_ Hhi] Hdq].
        assert (d1 - d2 + s - 1 < Zdigits2 q)%Z.
        { apply (Z.pow_lt_mono_r_iff 2); lia. }
        lia. }
    unfold s in Hk. lia.
Qed.

Lemma SFdiv_spec (mx : positive) (ex : Z) (md : positive) (ed : Z) :
  let t := (IZR (Zpos mx) * bpow ex) / (IZR (Zpos md) * bpow ed) in
  let q := SFdiv prec emax (S754_finite false mx ex) (S754_finite false md ed) in
  t <= 2 ->
  (q = S754_zero false \/ exists m e, q = S754_finite false m e)
  /\ SF2R q <= t + (eps * t + eta) / 2
  /\ t - 3 * (eps * t + eta) <= SF2R q.
Proof.
  intros t q Ht.
  pose proof (SFdiv_core_located mx ex md ed) as Hcore.
  unfold q, SFdiv.
  destruct (SFdiv_core_binary prec emax (Zpos mx) ex (Zpos md) ed) as [[q0 e'] l].
  simpl in Hcore. destruct Hcore as (Hq0 & Hloc & Hprec).
  fold t in Hloc.
  destruct (binary_round_aux_spec (xorb false false) q0 e' l t Hq0 Hloc
              (or_introl Hprec))
    as (m2 & e2 & Hm2 & Heq & Hup & Hlo & Hsize & Hgrid).
  rewrite Heq. simpl xorb.
  pose proof eps_pos as Heps. pose proof eta_pos as Heta.
  assert (Heps2 : eps <= 1 / 2).
  { unfold eps. pose proof (bpow_le (-52) (-1) ltac:(lia)) as H.
    replace (bpow (-1)) with (1 / 2) in H; [exact H|].
    unfold bpow. simpl. field. }
  assert (Heta1 : eta <= 1).
  { unfold eta. pose proof (bpow_le (-1074) 0 ltac:(lia)) as H.
    rewrite bpow_0 in H. exact H. }
  assert (Hfin : m2 = 0%Z \/ (e2 <= 971)%Z).
  { destruct (Z.eq_dec m2 0) as [|Hne]; [left; assumption | right].
    assert (e2 < 2)%Z; [|lia].
    apply (small_exponent m2 e2 2); [lia|].
    replace (bpow 2) with 4 by (unfold bpow; simpl; ring).
    nra. }
  destruct (round_result false m2 e2 Hm2 Hfin) as [Hshape Hval].
  split; [exact Hshape|]. rewrite Hval. split; assumption.
Qed.

(** Subtraction *)

Lemma iter_xO_value (m d : positive) :
  Zpos (Pos.iter xO m d) = (Zpos m * 2 ^ Zpos d)%Z.
Proof.
  induction d as [|d IH] using Pos.peano_ind.
  - simpl. rewrite Pos2Z.inj_xO. lia.
  - rewrite Pos.iter_succ, Pos2Z.inj_xO, IH, Pos2Z.inj_succ.
    rewrite Z.pow_succ_r by lia. ring.
Qed.

Lemma shl_align_value (m : positive) (e e' : Z) :
  IZR (Zpos (fst (shl_align m e e'))) * bpow (snd (shl_align m e e'))
  = IZR (Zpos m) * bpow e
  /\ snd (shl_align m e e') = Z.min e e'.
Proof.
  unfold shl_align. destruct (e' - e)%Z as [|d|d] eqn:Hd; simpl fst; simpl snd.
  - split; [reflexivity | lia].
  - split; [reflexivity | lia].
  - split; [|lia].
    rewrite iter_xO_value, mult_IZR, <- (bpow_IZR (Zpos d)) by lia.
    rewrite Rmult_assoc, <- bpow_add. f_equal. f_equal. lia.
Qed.

Lemma binary_round_spec (sx : bool) (m : positive) (e : Z) :
  let t := IZR (Zpos m) * bpow e in
  let z := binary_round prec emax sx m e in
  t <= 2 ->
  (SFabs z = S754_zero false \/ exists m' e', SFabs z = S754_finite false m' e')
  /\ SF2R (SFabs z) <= t + (eps * t + eta) / 2.
Proof.
  intros t z Ht. unfold z, binary_round.
  pose proof (shl_align_value m e (fexp prec emax (Zpos (digits2_pos m) + e)))
    as [Hval _].
  destruct (shl_align m e (fexp prec emax (Zpos (digits2_pos m) + e))) as [mz ez].
  simpl fst in Hval. simpl snd in Hval.
  assert (Hloc : located (Zpos mz) loc_Exact ez t).
  { unfold located, t. symmetry. exact Hval. }
  destruct (binary_round_aux_spec sx (Zpos mz) ez loc_Exact t ltac:(lia) Hloc
              (or_intror eq_refl))
    as (m2 & e2 & Hm2 & Heq & Hup & Hlo & Hsize & Hgrid).
  rewrite Heq.
  pose proof eps_pos as Heps. pose proof eta_pos as Heta.
  assert (Heps2 : eps <= 1 / 2).
  { unfold eps. pose proof (bpow_le (-52) (-1) ltac:(lia)) as H.
    replace (bpow (-1)) with (1 / 2) in H; [exact H|].
    unfold bpow. simpl. field. }
  assert (Heta1 : eta <= 1).
  { unfold eta. pose proof (bpow_le (-1074) 0 ltac:(lia)) as H.
    rewrite bpow_0 in H. exact H. }
  assert (Ht0 : 0 < t).
  { unfold t. apply Rmult_lt_0_compat; [apply IZR_lt; reflexivity | apply bpow_pos]. }
  assert (Hfin : m2 = 0%Z \/ (e2 <= 971)%Z).
  { destruct (Z.eq_dec m2 0) as [|Hne]; [left; assumption | right].
    assert (e2 < 2)%Z; [|lia].
    apply (small_exponent m2 e2 2); [lia|].
    replace (bpow 2) with 4 by (unfold bpow; simpl; ring).
    nra. }
  destruct m2 as [|m'|m']; [| |lia].
  - split; [left; reflexivity|]. cbv [SFabs SF2R]. nra.
  - destruct Hfin as [Habs | He2]; [discriminate Habs|].
    change (emax - prec)%Z with 971%Z.
    destruct (Z.leb_spec e2 971) as [_ | Hgt]; [|lia].
    cbv [SFabs SF2R]. split; [right; eauto | exact Hup].
Qed.

Lemma SFabs_SFsub_spec (x y : spec_float) :
  nonneg_number x -> nonneg_number y ->
  Rabs (SF2R x - SF2R y) <= 2 ->
  let z := SFabs (SFsub prec emax x y) in
  (z = S754_zero false \/ exists m e, z = S754_finite false m e)
  /\ SF2R z <= Rabs (SF2R x - SF2R y)
               + (eps * Rabs (SF2R x - SF2R y) + eta) / 2.
Proof.
  intros Hx Hy Hd z.
  pose proof eps_pos as Heps. pose proof eta_pos as Heta.
  pose proof (Rabs_pos (SF2R x - SF2R y)) as Habs.
  assert (Hslack : forall v, v = Rabs (SF2R x - SF2R y) ->
            v <= Rabs (SF2R x - SF2R y)
                 + (eps * Rabs (SF2R x - SF2R y) + eta) / 2).
  { intros v ->. nra. }
  destruct Hx as [[sx ->] | (mx & ex & ->)]; destruct Hy as [[sy ->] | (my & ey & ->)].
  - split.
    + left. unfold z. destruct sx, sy; reflexivity.
    + unfold z. replace (SF2R (SFabs _)) with 0 by (destruct sx, sy; reflexivity).
      nra.
  - split; [right; unfold z; simpl; eauto|].
    apply Hslack. unfold z. cbv [SFsub SFabs SF2R negb].
    assert (0 < IZR (Zpos my) * bpow ey)
      by (apply Rmult_lt_0_compat; [apply IZR_lt; reflexivity | apply bpow_pos]).
    rewrite Rabs_left by lra. ring.
  - split; [right; unfold z; simpl; eauto|].
    apply Hslack. unfold z. cbv [SFsub SFabs SF2R].
    assert (0 < IZR (Zpos mx) * bpow ex)
      by (apply Rmult_lt_0_compat; [apply IZR_lt; reflexivity | apply bpow_pos]).
    rewrite Rabs_right by lra. ring.
  - unfold z. cbv [SFsub cond_Zopp].
    set (ez := Z.min ex ey).
    pose proof (shl_align_value mx ex ez) as [Hvx Hex].
    pose proof (shl_align_value my ey ez) as [Hvy Hey].
    rewrite Hex in Hvx. rewrite Hey in Hvy.
    replace (Z.min ex ez) with ez in Hvx by (unfold ez; lia).
    replace (Z.min ey ez) with ez in Hvy by (unfold ez; lia).
    set (a := Zpos (fst (shl_align mx ex ez))) in *.
    set (b := Zpos (fst (shl_align my ey ez))) in *.
    cbv [SF2R] in Hd, Hslack, Habs |- *.
    assert (Hdiff : IZR (a - b) * bpow ez
                    = IZR (Zpos mx) * bpow ex - IZR (Zpos my) * bpow ey).
    { rewrite minus_IZR. rewrite <- Hvx, <- Hvy. ring. }
    pose proof (bpow_pos ez) as Hbz.
    unfold binary_normalize.
    destruct (a - b)%Z as [|m|m] eqn:Hab.
    + split; [left; reflexivity|]. cbv [SFabs]. nra.
    + assert (Ht : IZR (Zpos m) * bpow ez
                   = Rabs (IZR (Zpos mx) * bpow ex - IZR (Zpos my) * bpow ey)).
      { rewrite <- Hdiff. rewrite Rabs_right; [reflexivity|].
        assert (0 < IZR (Zpos m)) by (apply IZR_lt; reflexivity). nra. }
      rewrite <- Ht in *.
      apply (binary_round_spec false m ez). exact Hd.
    + assert (Ht : IZR (Zpos m) * bpow ez
                   = Rabs (IZR (Zpos mx) * bpow ex - IZR (Zpos my) * bpow ey)).
      { rewrite <- Hdiff. rewrite Rabs_left.
        - change (Zneg m) with (- Zpos m)%Z. rewrite opp_IZR. ring.
        - assert (IZR (Zneg m) < 0) by (apply IZR_lt; reflexivity). nra. }
      rewrite <- Ht in *.
      apply (binary_round_spec true m ez). exact Hd.
Qed.

(** The error of a product followed by a quotient, in real numbers *)

Lemma round_trip_error (P D X Q Z T : R) :
  0 < T <= 1 -> eps <= T / 1024 ->
  0 <= P <= 1 -> 0 < D -> eta <= T / 16 * D ->
  X <= P * D + (eps * (P * D) + eta) / 2 ->
  P * D - 3 * (eps * (P * D) + eta) <= X ->
  Q <= X / D + (eps * (X / D) + eta) / 2 ->
  X / D - 3 * (eps * (X / D) + eta) <= Q ->
  Z <= Rabs (Q - P) + (eps * Rabs (Q - P) + eta) / 2 ->
  Z <= T.
Proof.
  intros HT Heps HP HD Heta HXup HXlo HQup HQlo HZ.
  pose proof eps_pos as Heps0. pose proof eta_pos as Heta0.
  assert (Hee : eta <= eps) by (apply bpow_le; lia).
  set (r := / D). assert (Hr : 0 < r) by (apply Rinv_0_lt_compat; exact HD).
  assert (HDr : D * r = 1) by (unfold r; field; lra).
  set (w := eta * r).
  assert (Hw : 0 <= w <= T / 16).
  { unfold w. split; [apply Rmult_le_pos; lra|].
    apply Rle_trans with (T / 16 * D * r); [apply Rmult_le_compat_r; lra|].
    right. rewrite Rmult_assoc, HDr. ring. }
  set (u := X / D) in *.
  assert (Hu : u = X * r) by reflexivity.
  assert (Hu_up : u <= P + (eps * P + w) / 2).
  { rewrite Hu.
    apply Rle_trans with ((P * D + (eps * (P * D) + eta) / 2) * r);
      [apply Rmult_le_compat_r; lra|].
    right. unfold w.
    replace ((P * D + (eps * (P * D) + eta) / 2) * r)
      with (P * (D * r) + (eps * P * (D * r) + eta * r) / 2) by field.
    rewrite HDr. field. }
  assert (Hu_lo : P - 3 * (eps * P + w) <= u).
  { rewrite Hu.
    apply Rle_trans with ((P * D - 3 * (eps * (P * D) + eta)) * r);
      [|apply Rmult_le_compat_r; lra].
    right. unfold w.
    replace ((P * D - 3 * (eps * (P * D) + eta)) * r)
      with (P * (D * r) - 3 * (eps * P * (D * r) + eta * r)) by ring.
    rewrite HDr. ring. }
  assert (HepsP : 0 <= eps * P <= eps).
  { split; [apply Rmult_le_pos; lra|].
    rewrite <- (Rmult_1_r eps) at 2. apply Rmult_le_compat_l; lra. }
  assert (Hu2 : u <= 2) by lra.
  assert (Hepsu : eps * u <= 2 * eps).
  { rewrite (Rmult_comm 2). apply Rmult_le_compat_l; lra. }
  assert (Hepsu' : - eps <= eps * u).
  { assert (- 1 <= u) by lra.
    replace (- eps) with (eps * - 1) by ring. apply Rmult_le_compat_l; lra. }
  assert (HA : Rabs (Q - P) <= 12 * eps + 3 * (T / 16)).
  { apply Rabs_le. lra. }
  pose proof (Rabs_pos (Q - P)) as HA0.
  assert (HepsA : eps * Rabs (Q - P) <= Rabs (Q - P)).
  { rewrite <- (Rmult_1_l (Rabs (Q - P))) at 2. apply Rmult_le_compat_r; lra. }
  lra.
Qed.

(** The round trip on binary64 numbers *)

Lemma Prim2SF_constants :
  Prim2SF 0 = S754_zero false /\ Prim2SF 1 = SF_one
  /\ Prim2SF 0x1p-1050 = SF_least /\ Prim2SF infinity = S754_infinity false
  /\ Prim2SF 0x1p-20 = SF_tolerance.
Proof. repeat split. Qed.

Theorem product_quotient_within_tolerance (p d : float) :
  (0 <=? p)%float = true -> (p <=? 1)%float = true ->
  (0x1p-1050 <=? d)%float = true -> (d <? infinity)%float = true ->
  (abs (p * d / d - p) <=? 0x1p-20)%float = true.
Proof.
  destruct Prim2SF_constants as (C0 & C1 & Cl & Ci & Ct).
  rewrite !leb_spec, ltb_spec, C0, C1, Cl, Ci, Ct.
  intros Hp0 Hp1 Hd0 Hd1.
  pose proof (Prim2SF_valid (abs (p * d / d - p))) as Hvalid.
  rewrite abs_spec, sub_spec, div_spec, mul_spec in *.
  pose proof (Prim2SF_valid p) as Hvp. pose proof (Prim2SF_valid d) as Hvd.
  destruct (duration_cases _ Hd0 Hd1 Hvd) as (md & ed & HD & Hcd & HDlo).
  pose proof (fraction_cases _ Hp0 Hp1 Hvp) as HP.
  set (P := Prim2SF p) in *. set (D := Prim2SF d) in *.
  unfold SF64sub, SF64div, SF64mul in *.
  set (X := SFmul prec emax P D) in *.
  set (Q := SFdiv prec emax X D) in *.
  pose proof eps_pos as Heps0. pose proof eta_pos as Heta0.
  pose proof (bpow_pos ed) as Hbed.
  assert (HDv : SF2R D = IZR (Zpos md) * bpow ed) by (rewrite HD; reflexivity).
  assert (HDpos : 0 < SF2R D).
  { rewrite HDv. apply Rmult_lt_0_compat; [apply IZR_lt; reflexivity | exact Hbed]. }
  assert (HT : 0 < bpow (-20) <= 1).
  { split; [apply bpow_pos|]. rewrite <- bpow_0. apply bpow_le. lia. }
  assert (Heps : eps <= bpow (-20) / 1024).
  { replace (bpow (-20) / 1024) with (bpow (-30)).
    - apply bpow_le. lia.
    - replace (-30)%Z with (-20 + -10)%Z by lia. rewrite bpow_add.
      replace (bpow (-10)) with (/ 1024) by (unfold bpow; simpl; field). field. }
  assert (Heta : eta <= bpow (-20) / 16 * SF2R D).
  { replace (bpow (-20) / 16) with (bpow (-24)).
    - unfold eta. replace (-1074)%Z with (-24 + -1050)%Z by lia. rewrite bpow_add.
      apply Rmult_le_compat_l; [left; apply bpow_pos|]. rewrite HDv. exact HDlo.
    - replace (-24)%Z with (-20 + -4)%Z by lia. rewrite bpow_add.
      replace (bpow (-4)) with (/ 16) by (unfold bpow; simpl; field). field. }
  assert (HetaD : eta <= SF2R D / 16).
  { assert (bpow (-20) * SF2R D <= 1 * SF2R D)
      by (apply Rmult_le_compat_r; lra).
    lra. }
  (* the product and the quotient *)
  assert (HX : nonneg_number X
               /\ SF2R X <= SF2R P * SF2R D + (eps * (SF2R P * SF2R D) + eta) / 2
               /\ SF2R P * SF2R D - 3 * (eps * (SF2R P * SF2R D) + eta) <= SF2R X
               /\ 0 <= SF2R P <= 1 /\ nonneg_number P).
  { destruct HP as [[s HPz] | (mp & ep & HPf & Hcp & Hep & Hcase)].
    - unfold X. rewrite HPz, HD. cbv [SFmul SF2R].
      split; [left; eauto|]. split; [lra|]. split; [lra|]. split; [lra|].
      left. eauto.
    - pose proof (SFmul_fraction mp ep md ed Hep Hcase Hcd) as (Hshape & Hup & Hlo).
      unfold X. rewrite HPf, HD.
      cbv [SF2R] in Hup, Hlo |- *. fold (SF2R (SFmul prec emax (S754_finite false mp ep) (S754_finite false md ed))) in Hup, Hlo |- *.
      split.
      { destruct Hshape as [-> | Hf]; [left; eauto | right; exact Hf]. }
      split; [exact Hup|]. split; [exact Hlo|]. split; [|right; eauto].
      pose proof (bpow_pos ep).
      assert (0 < IZR (Zpos mp)) by (apply IZR_lt; reflexivity).
      split; [nra|].
      destruct Hcase as [[-> ->] | Hle].
      + right. change (Zpos 4503599627370496) with (2 ^ 52)%Z.
        rewrite <- (bpow_IZR 52) by lia. rewrite <- bpow_add. reflexivity.
      + pose proof (bpow_pos (-53)). lra. }
  destruct HX as (HXn & HXup & HXlo & HPr & HPn).
  assert (HXpos : 0 <= SF2R X).
  { destruct HXn as [[s ->] | (m & e & ->)]; cbv [SF2R]; [lra|].
    pose proof (bpow_pos e). assert (0 < IZR (Zpos m)) by (apply IZR_lt; reflexivity).
    nra. }
  assert (HQ : nonneg_number Q
               /\ SF2R Q <= SF2R X / SF2R D + (eps * (SF2R X / SF2R D) + eta) / 2
               /\ SF2R X / SF2R D - 3 * (eps * (SF2R X / SF2R D) + eta) <= SF2R Q).
  { destruct HXn as [[s HXz] | (mx & ex & HXf)].
    - unfold Q. rewrite HXz, HD. cbv [SFdiv SF2R].
      split; [left; eauto|].
      unfold Rdiv. rewrite !Rmult_0_l. split; lra.
    - assert (Hle2 : SF2R X / SF2R D <= 2).
      { apply Rmult_le_reg_r with (SF2R D); [exact HDpos|].
        replace (SF2R X / SF2R D * SF2R D) with (SF2R X) by (field; lra).
        assert (eps * (SF2R P * SF2R D) <= SF2R D / 1024).
        { assert (SF2R P * SF2R D <= SF2R D) by nra.
          assert (0 <= SF2R P * SF2R D) by nra. nra. }
        assert (SF2R P * SF2R D <= SF2R D) by nra.
        lra. }
      unfold Q in *. rewrite HXf, HD in *. cbv [SF2R] in Hle2 |- *.
      pose proof (SFdiv_spec mx ex md ed Hle2) as (Hshape & Hup & Hlo).
      cbv [SF2R] in Hup, Hlo.
      split; [|split; assumption].
      destruct Hshape as [-> | Hf]; [left; eauto | right; exact Hf]. }
  destruct HQ as (HQn & HQup & HQlo).
  assert (HQpos : 0 <= SF2R Q).
  { destruct HQn as [[s ->] | (m & e & ->)]; cbv [SF2R]; [lra|].
    pose proof (bpow_pos e). assert (0 < IZR (Zpos m)) by (apply IZR_lt; reflexivity).
    nra. }
  assert (Hclose : Rabs (SF2R Q - SF2R P) <= 2).
  { assert (Hu : SF2R X / SF2R D <= 11 / 10).
    { apply Rmult_le_reg_r with (SF2R D); [exact HDpos|].
      replace (SF2R X / SF2R D * SF2R D) with (SF2R X) by (field; lra).
      assert (SF2R P * SF2R D <= SF2R D) by nra.
      assert (0 <= SF2R P * SF2R D) by nra.
      assert (eps * (SF2R P * SF2R D) <= SF2R D / 1024) by nra.
      lra. }
    assert (Hu0 : 0 <= SF2R X / SF2R D).
    { apply Rmult_le_pos; [exact HXpos | left; apply Rinv_0_lt_compat; exact HDpos]. }
    assert (eps * (SF2R X / SF2R D) <= 1 * (11 / 10)).
    { apply Rmult_le_compat; lra. }
    assert (eta <= 1 / 2).
    { unfold eta. apply Rle_trans with (bpow (-1)); [apply bpow_le; lia|].
      right. unfold bpow. simpl. field. }
    apply Rabs_le. lra. }
  pose proof (SFabs_SFsub_spec Q P HQn HPn Hclose) as (Hshape & Hz).
  apply tolerance_leb; [exact Hvalid | exact Hshape |].
  apply (round_trip_error (SF2R P) (SF2R D) (SF2R X) (SF2R Q) _ (bpow (-20)));
    assumption.
Qed.

Lemma duration_is_truthy (d : float) :
  (0x1p-1050 <=? d)%float = true -> (d <? infinity)%float = true ->
  (is_zero d || is_nan d)%bool = false.
Proof.
  destruct Prim2SF_constants as (C0 & _ & Cl & Ci & _).
  rewrite leb_spec, ltb_spec, Cl, Ci. intros Hd0 Hd1.
  destruct (duration_cases _ Hd0 Hd1 (Prim2SF_valid d)) as (m & e & HD & _ & _).
  unfold is_zero, is_nan. rewrite !eqb_spec.
  change (Prim2SF zero) with (S754_zero false). rewrite HD.
  unfold SFeqb, SFcompare. rewrite Z.compare_refl, compare_cont_Eq, Pos.compare_refl.
  reflexivity.
Qed.

End Rounding.

(** ** Time updates that carry a fraction of the duration *)

(** C5, amended: for every fraction [p] in [0,1] and every duration [d]
    from 2^-1050 up and below infinity, with [seeking] false,
    [onTimeUpdate (p * d) d] leaves [played] within the tolerance 2^-20 of
    [p], sets [playedSeconds] to [p * d] and gives no other field a new
    value; for any current time [c] and any duration that is neither zero
    nor NaN it sets [playedSeconds] to [c] and [played] to the binary64
    quotient [c / d]; and when [seeking] is true or the duration is zero or
    NaN it changes nothing. *)
Theorem onTimeUpdate_sets_played (p c d : number) (w : Widget) :
  (seeking (state w) = false -> isFraction p = true ->
   (0x1p-1050 <=? d)%float = true -> (d <? infinity)%float = true ->
     withinTolerance (played (state (onTimeUpdate (p * d)%float d w))) p = true
     /\ playedSeconds (state (onTimeUpdate (p * d)%float d w)) = (p * d)%float
     /\ keptExcept [Fplayed; FplayedSeconds] w (onTimeUpdate (p * d)%float d w))
  /\ (seeking (state w) = false -> truthy_number d = true ->
      playedSeconds (state (onTimeUpdate c d w)) = c
      /\ played (state (onTimeUpdate c d w)) = (c / d)%float
      /\ keptExcept [Fplayed; FplayedSeconds] w (onTimeUpdate c d w))
  /\ (seeking (state w) = true \/ truthy_number d = false ->
      onTimeUpdate c d w = w).
Proof.
  assert (Hset : forall x, seeking (state w) = false -> truthy_number d = true ->
            playedSeconds (state (onTimeUpdate x d w)) = x
            /\ played (state (onTimeUpdate x d w)) = (x / d)%float
            /\ keptExcept [Fplayed; FplayedSeconds] w (onTimeUpdate x d w)).
  { intros x Hs Hd. unfold onTimeUpdate, handleTimeUpdate. simpl.
    rewrite Hs, Hd. simpl. repeat split; auto. frame. }
  split; [|split].
  - intros Hs Hp Hd0 Hd1.
    assert (Htruthy : truthy_number d = true).
    { unfold truthy_number. rewrite (Rounding.duration_is_truthy d Hd0 Hd1).
      reflexivity. }
    destruct (Hset (p * d)%float Hs Htruthy) as (Hsec & Hplayed & Hkept).
    split; [|split; assumption].
    rewrite Hplayed. unfold withinTolerance.
    unfold isFraction in Hp. apply andb_prop in Hp. destruct Hp as [Hp0 Hp1].
    apply Rounding.product_quotient_within_tolerance; assumption.
  - apply Hset.
  - intros [Hs | Hd].
    + apply handleTimeUpdate_seeking. exact Hs.
    + apply handleTimeUpdate_falsy_duration. exact Hd.
Qed.

Lemma onTimeUpdate_sets_played_witness :
  (let w := mount [] in
   let p := 0.25%float in
   let d := 120%float in
   withinTolerance (played (state (onTimeUpdate (p * d)%float d w))) p = true
   /\ playedSeconds (state (onTimeUpdate (p * d)%float d w)) = (p * d)%float
   /\ keptExcept [Fplayed; FplayedSeconds] w (onTimeUpdate (p * d)%float d w))
  /\ (playedSeconds (state (onTimeUpdate 30%float (-1)%float (mount []))) = 30%float
      /\ played (state (onTimeUpdate 30%float (-1)%float (mount [])))
         = (30 / -1)%float
      /\ keptExcept [Fplayed; FplayedSeconds] (mount [])
           (onTimeUpdate 30%float (-1)%float (mount [])))
  /\ onTimeUpdate 30%float nan (mount []) = mount []
  /\ onTimeUpdate 30%float 120%float (scrubbing (mount [])) = scrubbing (mount []).
Proof.
  split; [|split; [|split]].
  - intros w p d.
    apply (proj1 (onTimeUpdate_sets_played p 0%float d w)); reflexivity.
  - apply (proj1 (proj2 (onTimeUpdate_sets_played
                           0%float 30%float (-1)%float (mount []))));
      reflexivity.
  - apply (proj2 (proj2 (onTimeUpdate_sets_played
                           0%float 30%float nan (mount [])))).
    right. reflexivity.
  - apply (proj2 (proj2 (onTimeUpdate_sets_played
                           0%float 30%float 120%float (scrubbing (mount []))))).
    left. reflexivity.
Defined.

(** The smallest duration the theorem covers, and the largest number. *)
Example onTimeUpdate_extreme_durations :
  withinTolerance
    (played (state (onTimeUpdate (0.75 * 0x1p-1050)%float 0x1p-1050%float (mount []))))
    0.75%float = true
  /\ withinTolerance
       (played (state (onTimeUpdate (0.75 * 0x1.fffffffffffffp+1023)%float
                         0x1.fffffffffffffp+1023%float (mount []))))
       0.75%float = true.
Proof. vm_compute. split; reflexivity. Qed.
